(** * OT-Security-Lab: the railway PLC, the game client and the Modbus gateway

    A shallow embedding of three programs of the repository:

    - [railway_plc_server.py]: the register store and the interlocking scan
      ([Plc]);
    - [modbus_gateway_console2.py]: the frame-rewriting proxy and the manual
      injector ([Gateway]);
    - [railway_pygame_final.py]: the main loop of the game, as far as it
      talks to the PLC ([Game]).

    Registers and coils are Python integers, modelled as [Z]; buffers are
    lists of bytes; Python exceptions are explicit error results. *)

From stdpp Require Import base option list.
From Stdlib Require Import ZArith Lia.
From Stdlib.Strings Require Import Byte.

Open Scope Z_scope.

(** ** The interlocking engine: [railway_plc_server.py] *)

Module Plc.

(** Address map (coils, then holding registers). *)
Definition CO_TURNOUT_MAIN : nat := 0.
Definition CO_ESTOP : nat := 1.

Definition HR_SIG_AB : nat := 0.
Definition HR_SIG_BC : nat := 1.
Definition HR_SIG_SB : nat := 2.

Definition HR_IN_OCC_A : nat := 100.
Definition HR_IN_OCC_B : nat := 101.
Definition HR_IN_OCC_C : nat := 102.
Definition HR_IN_CRASH : nat := 103.

Definition HR_MODE : nat := 50.

(** [b] and [clamp01]: [1 if int(v) != 0 else 0]. *)
Definition b (v : Z) : Z := if v =? 0 then 0 else 1.
Definition clamp01 (v : Z) : Z := if v =? 0 then 0 else 1.

(** The slave context, reduced to the two blocks the scan uses: the coil block
    and the holding-register block, both zero-based ([zero_mode=True]). The
    blocks hold Python integers. *)
Record store : Type := Store { co : list Z; hr : list Z }.

(** What a scan does to the store, in program order. *)
Inductive access : Type :=
  | ReadCo (a : nat)
  | ReadHr (a : nat)
  | WriteCo (a : nat) (v : Z)
  | WriteHr (a : nat) (v : Z).

(** Store computations: they may raise (an address outside the block, [None]),
    and otherwise return a value, the updated store and the accesses made. *)
Definition M (A : Type) : Type := store → option (A * store * list access).

#[export] Instance M_ret : MRet M := λ A (x : A) st, Some (x, st, []).
#[export] Instance M_bind : MBind M := λ A B (f : A → M B) (m : M A) st,
  match m st with
  | None => None
  | Some (x, st1, l1) =>
      match f x st1 with
      | None => None
      | Some (y, st2, l2) => Some (y, st2, l1 ++ l2)
      end
  end.

#[export] Instance M_fmap : FMap M := λ A B (f : A → B) (m : M A),
  x ← m; mret (f x).

(** [store.getValues(3, addr, count=1)[0]] and [store.setValues(3, addr, [v])].
    A read outside the block raises. A write outside the block is an error
    here too, as the contract of the store has it; the sequential block of
    pymodbus assigns a slice, which appends there. The two agree on every
    store that holds the address map ([covers_map] below), and so on the
    store that [main] creates. *)
Definition hr_get (addr : nat) : M Z := λ st,
  match hr st !! addr with
  | Some v => Some (v, st, [ReadHr addr])
  | None => None
  end.

Definition hr_set (addr : nat) (value : Z) : M unit := λ st,
  if decide (addr < length (hr st))%nat
  then Some (tt, Store (co st) (<[addr := value]> (hr st)), [WriteHr addr value])
  else None.

Definition co_get (addr : nat) : M Z := λ st,
  match co st !! addr with
  | Some v => Some (v, st, [ReadCo addr])
  | None => None
  end.

Definition co_set (addr : nat) (value : Z) : M unit := λ st,
  if decide (addr < length (co st))%nat
  then Some (tt, Store (<[addr := b value]> (co st)) (hr st), [WriteCo addr (b value)])
  else None.

Record Inputs : Type := MkInputs { occA : Z; occB : Z; occC : Z; crash : Z }.

Definition read_inputs : M Inputs :=
  a ← hr_get HR_IN_OCC_A;
  o ← hr_get HR_IN_OCC_B;
  c ← hr_get HR_IN_OCC_C;
  k ← hr_get HR_IN_CRASH;
  mret (MkInputs (b a) (b o) (b c) (b k)).

(** One scan. The two early [return]s of the source are the first branches of
    the two conditionals. *)
Definition plc_logic_scan : M unit :=
  mode ← clamp01 <$> hr_get HR_MODE;
  ins ← read_inputs;
  if negb (crash ins =? 0) then
    co_set CO_ESTOP 1;;
    hr_set HR_SIG_AB 0;;
    hr_set HR_SIG_BC 0;;
    hr_set HR_SIG_SB 0
  else
    co_set CO_ESTOP 0;;
    c ← co_get CO_TURNOUT_MAIN;
    turnout_main ←
      (if negb (occB ins =? 0)
       then co_set CO_TURNOUT_MAIN 1;; mret 1
       else mret (if negb (c =? 0) then 1 else 0));
    if mode =? 1 then
      v0 ← hr_get HR_SIG_AB; hr_set HR_SIG_AB (clamp01 v0);;
      v1 ← hr_get HR_SIG_BC; hr_set HR_SIG_BC (clamp01 v1);;
      v2 ← hr_get HR_SIG_SB; hr_set HR_SIG_SB (clamp01 v2)
    else
      let sig_ab := if occB ins =? 0 then 1 else 0 in
      let sig_bc := if occC ins =? 0 then 1 else 0 in
      let sig_sb := if (turnout_main =? 1) && (occB ins =? 0) then 1 else 0 in
      hr_set HR_SIG_AB sig_ab;;
      hr_set HR_SIG_BC sig_bc;;
      hr_set HR_SIG_SB sig_sb.

(** [scan_loop] without its clock and its once-a-second report (which only
    reads): [n] scans in a row. *)
Fixpoint scan_cycles (n : nat) : M unit :=
  match n with
  | O => mret tt
  | S k => plc_logic_scan;; scan_cycles k
  end.

(** The store [main] creates (200 coils, 300 holding registers, all zero) and
    the defaults it writes before the server starts. *)
Definition fresh_store : store := Store (replicate 200 0) (replicate 300 0).

Definition main_defaults : M unit :=
  co_set CO_TURNOUT_MAIN 1;;
  co_set CO_ESTOP 0;;
  hr_set HR_MODE 0;;
  hr_set HR_SIG_AB 0;;
  hr_set HR_SIG_BC 0;;
  hr_set HR_SIG_SB 0;;
  hr_set HR_IN_OCC_A 0;;
  hr_set HR_IN_OCC_B 0;;
  hr_set HR_IN_OCC_C 0;;
  hr_set HR_IN_CRASH 0.

Definition initial_store : store :=
  match main_defaults fresh_store with
  | Some (_, st, _) => st
  | None => fresh_store
  end.

(** A write from outside (a Modbus client): one register, one coil. *)
Definition with_hr (st : store) (addr : nat) (v : Z) : store :=
  Store (co st) (<[addr := v]> (hr st)).
Definition with_co (st : store) (addr : nat) (v : Z) : store :=
  Store (<[addr := v]> (co st)) (hr st).

(** Example stores, as a client could leave them: a crash reported while B is
    occupied and the turnout set to the siding; the supervised scenario of the
    specification, signals (0, 1, 0). *)
Definition crashed_at_B : store :=
  with_hr (with_hr (with_co initial_store CO_TURNOUT_MAIN 0) HR_IN_OCC_B 1)
          HR_IN_CRASH 1.

Definition occupied_B_siding : store :=
  with_hr (with_co initial_store CO_TURNOUT_MAIN 0) HR_IN_OCC_B 1.

Definition supervised_010 : store :=
  with_hr (with_hr initial_store HR_MODE 1) HR_SIG_BC 1.

(** The outcome of a computation, with one register of its final store
    overwritten. *)
Definition outcome_with_hr {A : Type} (addr : nat) (v : Z)
    (r : option (A * store * list access)) : option (A * store * list access) :=
  match r with
  | Some (x, st, l) => Some (x, with_hr st addr v, l)
  | None => None
  end.

(** A computation is blind to register 100 when writing that register first
    changes nothing but that register in the final store. *)
Definition occA_blind {A : Type} (m : M A) : Prop :=
  ∀ st v, m (with_hr st HR_IN_OCC_A v) = outcome_with_hr HR_IN_OCC_A v (m st).

(** The store holds every address of the map. *)
Definition covers_map (st : store) : Prop :=
  (CO_ESTOP < length (co st))%nat ∧ (HR_IN_CRASH < length (hr st))%nat.

(** The turnout as the scan reads it: [1 if co_get(store, CO_TURNOUT_MAIN) else 0]. *)
Definition turnout_main_of (st : store) : Z :=
  if co st !!! CO_TURNOUT_MAIN =? 0 then 0 else 1.

End Plc.

(** ** The frame-rewriting proxy: [modbus_gateway_console2.py] *)

Module Gateway.

Definition UNIT_ID : Z := 1.
Definition SIG_BC_HR_ADDR : Z := 1.

(** Python exceptions the parser can raise. *)
Inductive exn : Type := IndexError | StructError.

Definition byte_val (x : byte) : Z := Z.of_N (Byte.to_N x).

(** A big-endian unsigned 16-bit field ([H] of [struct]). *)
Definition u16be (hi lo : byte) : Z := byte_val hi * 256 + byte_val lo.

(** [struct.unpack_from(">HHHB", buf, off)] and [struct.unpack_from(">HH", buf,
    off)]; [None] is [struct.error] (the buffer is too short). *)
Definition unpack_HHHB (buf : list byte) (off : nat) : option (Z * Z * Z * Z) :=
  match drop off buf with
  | t1 :: t2 :: p1 :: p2 :: l1 :: l2 :: u :: _ =>
      Some (u16be t1 t2, u16be p1 p2, u16be l1 l2, byte_val u)
  | _ => None
  end.

Definition unpack_HH (buf : list byte) (off : nat) : option (Z * Z) :=
  match drop off buf with
  | a1 :: a2 :: q1 :: q2 :: _ => Some (u16be a1 a2, u16be q1 q2)
  | _ => None
  end.

(** [buf[i] = x] on a bytearray: negative indices count from the end, an index
    outside the buffer raises [IndexError] ([None]). *)
Definition set_item (buf : list byte) (i : Z) (x : byte) : option (list byte) :=
  let n := Z.of_nat (length buf) in
  if (0 <=? i) && (i <? n) then Some (<[Z.to_nat i := x]> buf)
  else if (- n <=? i) && (i <? 0) then Some (<[Z.to_nat (i + n) := x]> buf)
  else None.

(** The body of the loop of [process_modbus_payload], from [pdu = frame[7:]]
    to the point where the frame is appended to the output: the frame as it
    is forwarded, or the exception raised. *)
Definition rewrite_frame (frame : list byte) : exn + list byte :=
  let pdu := drop 7 frame in
  match pdu !! 0%nat with
  | None => inl IndexError
  | Some func_code =>
      if byte_val func_code =? 16 then
        match unpack_HH pdu 1 with
        | None => inl StructError
        | Some (start_addr, qty) =>
            if (start_addr <=? SIG_BC_HR_ADDR) && (SIG_BC_HR_ADDR <? start_addr + qty)
            then
              let val_offset := 6 + (SIG_BC_HR_ADDR - start_addr) * 2 in
              match set_item pdu val_offset x00 with
              | None => inl IndexError
              | Some pdu1 =>
                  match set_item pdu1 (val_offset + 1) x01 with
                  | None => inl IndexError
                  | Some pdu2 => inr (take 7 frame ++ pdu2)
                  end
              end
            else inr frame
        end
      else inr frame
  end.

(** The [while] loop, with [offset], [output] and the global
    [latest_transaction_id] as accumulators. Every turn that does not raise
    moves [offset] forward, so [fuel] bounds the number of turns; [None] only
    says that the fuel ran out. *)
Fixpoint parse_loop (fuel : nat) (data : list byte) (offset : nat)
    (latest_transaction_id : Z) (output : list byte)
    : option (Z * (exn + list byte)) :=
  match fuel with
  | O => None
  | S fuel' =>
      if Z.of_nat offset <=? Z.of_nat (length data) - 7 then
        match unpack_HHHB data offset with
        | None => Some (latest_transaction_id, inl StructError)
        | Some (tid, pid, len, unit) =>
            let total_frame_len := 6 + len in
            let frame := take (Z.to_nat total_frame_len) (drop offset data) in
            match rewrite_frame frame with
            | inl e => Some (tid, inl e)
            | inr frame' =>
                parse_loop fuel' data (offset + Z.to_nat total_frame_len)
                           tid (output ++ frame')
            end
        end
      else Some (latest_transaction_id, inr output)
  end.

(** [process_modbus_payload(data)], given the current value of the global
    [latest_transaction_id]: the new value of the global, and the bytes
    returned or the exception raised. *)
Definition process_modbus_payload (data : list byte) (latest_transaction_id : Z)
    : option (Z * (exn + list byte)) :=
  parse_loop (S (length data)) data 0 latest_transaction_id [].

(** One turn of [pipe] on a buffer read from the socket: the bytes written to
    the other side, or [None] when the exception ends the relay. *)
Definition pipe_turn (should_modify : bool) (data : list byte)
    (latest_transaction_id : Z) : Z * option (list byte) :=
  if should_modify then
    match process_modbus_payload data latest_transaction_id with
    | Some (tid, inr out) => (tid, Some out)
    | Some (tid, inl _) => (tid, None)
    | None => (latest_transaction_id, None)
    end
  else (latest_transaction_id, Some data).

(** [struct.pack] of one [H] and one [B] field; [None] is [struct.error]. *)
Definition byte_of (v : Z) : option byte :=
  if (0 <=? v) && (v <? 256) then Byte.of_N (Z.to_N v) else None.

Definition pack_B (v : Z) : option (list byte) :=
  x ← byte_of v; Some [x].

Definition pack_H (v : Z) : option (list byte) :=
  if (0 <=? v) && (v <? 65536) then
    hi ← byte_of (v / 256); lo ← byte_of (v mod 256); Some [hi; lo]
  else None.

(** The transaction identifier and the packet of a manual override
    ([manual_console_trigger], commands [g] and [r]). *)
Definition manual_tid (latest_transaction_id : Z) : Z :=
  (latest_transaction_id + 1) mod 65535.

Definition manual_packet (latest_transaction_id val : Z) : option (list byte) :=
  let tid := manual_tid latest_transaction_id in
  f1 ← pack_H tid; f2 ← pack_H 0; f3 ← pack_H 6; f4 ← pack_B UNIT_ID;
  f5 ← pack_B 6; f6 ← pack_H SIG_BC_HR_ADDR; f7 ← pack_H val;
  Some (f1 ++ f2 ++ f3 ++ f4 ++ f5 ++ f6 ++ f7).

(** *** Frames, for the statements *)

(** The fields of a frame, read where the parser reads them. *)
Definition frame_tid (f : list byte) : option Z :=
  '(tid, _, _, _) ← unpack_HHHB f 0; Some tid.
Definition frame_len (f : list byte) : option Z :=
  '(_, _, len, _) ← unpack_HHHB f 0; Some len.
Definition frame_func (f : list byte) : option Z := byte_val <$> f !! 7%nat.
Definition frame_start (f : list byte) : option Z := fst <$> unpack_HH f 8.
Definition frame_qty (f : list byte) : option Z := snd <$> unpack_HH f 8.

(** A complete frame: the six bytes up to and including the length field,
    then as many bytes as that field says, the first two of which are the unit
    identifier and the function code. *)
Definition complete_frame (f : list byte) : Prop :=
  ∃ len, frame_len f = Some len ∧ 2 ≤ len ∧ Z.of_nat (length f) = 6 + len.

(** A write-multiple-registers frame (function 16) whose range of registers
    contains the protected register. *)
Definition targets_protected (f : list byte) : Prop :=
  frame_func f = Some 16 ∧
  ∃ start qty, frame_start f = Some start ∧ frame_qty f = Some qty ∧
               start ≤ SIG_BC_HR_ADDR < start + qty.

(** A write-multiple-registers frame is laid out as function code, start,
    quantity, byte count and two bytes for each register. *)
Definition write_multiple_layout (f : list byte) : Prop :=
  frame_func f = Some 16 →
  ∃ qty, frame_qty f = Some qty ∧ 13 + 2 * qty ≤ Z.of_nat (length f).

Definition well_formed (f : list byte) : Prop :=
  complete_frame f ∧ write_multiple_layout f.

(** Where the two bytes of the protected register sit in a frame that writes
    registers from [start] on: header (7), function code, start, quantity,
    byte count (6), then two bytes for each register. *)
Definition protected_pos (f : list byte) : nat :=
  match frame_start f with
  | Some start => Z.to_nat (13 + 2 * (SIG_BC_HR_ADDR - start))
  | None => 0
  end.

(** Example traffic of the game client: [write_signals(0, 0, 1)] (function 16,
    registers 0 to 2) with transaction 5; [write_inputs(1, 0, 0, 0)] (function
    16, registers 100 to 103) with transaction 6; a read of three holding
    registers (function 3) with transaction 0xFFFF. *)
Definition signals_frame : list byte :=
  [x00; x05; x00; x00; x00; x0d; x01; x10; x00; x00; x00; x03; x06;
   x00; x00; x00; x00; x00; x01].

Definition signals_frame_forced : list byte :=
  [x00; x05; x00; x00; x00; x0d; x01; x10; x00; x00; x00; x03; x06;
   x00; x00; x00; x01; x00; x01].

Definition inputs_frame : list byte :=
  [x00; x06; x00; x00; x00; x0f; x01; x10; x00; x64; x00; x04; x08;
   x00; x01; x00; x00; x00; x00; x00; x00].

Definition read_frame : list byte :=
  [xff; xff; x00; x00; x00; x06; x01; x03; x00; x00; x00; x03].

(** Two function-16 frames that are complete but do not carry the register
    bytes their quantity announces. [short_write] (transaction 7, registers 0
    and 1) stops after the quantity. [clipped_write] (transaction 8, registers
    0 to 4, byte count 10) carries the bytes of registers 0 and 1 only. *)
Definition short_write : list byte :=
  [x00; x07; x00; x00; x00; x06; x01; x10; x00; x00; x00; x02].

Definition clipped_write : list byte :=
  [x00; x08; x00; x00; x00; x0b; x01; x10; x00; x00; x00; x05; x0a;
   x00; x01; x00; x00].

Definition clipped_write_forced : list byte :=
  [x00; x08; x00; x00; x00; x0b; x01; x10; x00; x00; x00; x05; x0a;
   x00; x01; x00; x01].

(** The transaction identifier of the last frame of a buffer. *)
Definition last_tid (frames : list (list byte)) (tid : Z) : Z :=
  foldl (λ t f, default t (frame_tid f)) tid frames.

(** A frame goes through the body of the loop and comes out as [o]. *)
Definition forwarded_as (f o : list byte) : Prop := rewrite_frame f = inr o.

(** A byte of the output against the byte of the input at the same place: the
    same, or one of the two bytes of the forced value. *)
Definition forced_or_same (x y : byte) : Prop := y = x ∨ y = x00 ∨ y = x01.

(** Bytes left at the end of a buffer that do not make a complete frame. *)
Definition incomplete_frame (t : list byte) : Prop :=
  t ≠ [] ∧
  match frame_len t with
  | Some len => Z.of_nat (length t) < 6 + len
  | None => True
  end.

End Gateway.

(** ** The game client and its mode arbitration: [railway_pygame_final.py] *)

Module Game.

(** Times are Python floats in seconds, read from [time.time()]; they are
    modelled as integers in milliseconds, and all the readings of the clock
    within one turn of the main loop as one reading, [now]. Drawing, the UDP
    broadcast to the viewer and the train coordinates are left out: they
    neither talk to the PLC nor feed back into the state below. The
    comparisons of times are exact on these integers and made on floats in
    the source: they agree on readings that binary floating point holds
    exactly (the multiples of 250 ms of [under_way] below) and can fall
    either way at a boundary otherwise. The general statements below hold for
    every reading of the clock, whichever way each comparison falls. *)
Definition PLC_POLL_SEC : Z := 100.
Definition MOVE_DURATION_SEC : Z := 1600.
Definition WAIT_SEC : Z := 3000.
Definition JUNCTION_HEADWAY_SEC : Z := 1200.
Definition CRASH_DURATION : Z := 1200.
Definition PUBLISH_HOLD_SEC : Z := 500.

Definition HR_IN_OCC_A : nat := 100.
Definition HR_IN_CRASH : nat := 103.
Definition HR_SIG_AB : nat := 0.
Definition HR_MODE : nat := 50.
Definition HR_OVR_OCC_BASE : nat := 110.
Definition CO_TURNOUT_MAIN : nat := 0.

Definition RED : Z := 0.
Definition GREEN : Z := 1.

Inductive auto_phase : Type :=
  | AUTO_INIT_WAIT | AUTO_T1_A_TO_C | AUTO_T2_S_TO_B | AUTO_WAIT_AT_B
  | AUTO_T2_B_TO_S | AUTO_T1_C_TO_A | AUTO_WAIT_AT_A.

(** Where a train is: a block, the siding, the wreck, or Python's [None]. *)
Inductive place : Type := A | B | C | S | CRASH | NoPlace.

#[export] Instance place_eq_dec : EqDecision place.
Proof. solve_decision. Defined.

Record train : Type := Train {
  loc : place;
  moving : bool;
  move_start : Z;
  dest : place
}.

Inductive train_key : Type := KT1 | KT2.

Record game : Type := Game {
  plc_connected : bool;
  last_plc : Z;
  mode_auto : bool;
  scada_mode_manual : bool;
  need_resync : bool;
  prev_comms_enabled : bool;
  auto_write_hold_until : Z;
  sig_ab : Z;
  sig_bc : Z;
  sig_sb : Z;
  turnout_to_main : bool;
  estop : Z;
  occ_A : Z;
  occ_B : Z;
  occ_C : Z;
  occ_S : Z;
  crash_active : bool;
  crash_start : Z;
  crash_sent_to_plc : bool;
  t1_claims_b_until : Z;
  auto_state : auto_phase;
  wait_until : Z;
  T1 : train;
  T2 : train
}.

Definition set_plc_connected (v : bool) (g : game) : game :=
  Game v (last_plc g) (mode_auto g) (scada_mode_manual g) (need_resync g)
    (prev_comms_enabled g) (auto_write_hold_until g) (sig_ab g) (sig_bc g) (sig_sb g)
    (turnout_to_main g) (estop g) (occ_A g) (occ_B g) (occ_C g) (occ_S g) (crash_active
    g) (crash_start g) (crash_sent_to_plc g) (t1_claims_b_until g) (auto_state g)
    (wait_until g) (T1 g) (T2 g).
Definition set_last_plc (v : Z) (g : game) : game :=
  Game (plc_connected g) v (mode_auto g) (scada_mode_manual g) (need_resync g)
    (prev_comms_enabled g) (auto_write_hold_until g) (sig_ab g) (sig_bc g) (sig_sb g)
    (turnout_to_main g) (estop g) (occ_A g) (occ_B g) (occ_C g) (occ_S g) (crash_active
    g) (crash_start g) (crash_sent_to_plc g) (t1_claims_b_until g) (auto_state g)
    (wait_until g) (T1 g) (T2 g).
Definition set_mode_auto (v : bool) (g : game) : game :=
  Game (plc_connected g) (last_plc g) v (scada_mode_manual g) (need_resync g)
    (prev_comms_enabled g) (auto_write_hold_until g) (sig_ab g) (sig_bc g) (sig_sb g)
    (turnout_to_main g) (estop g) (occ_A g) (occ_B g) (occ_C g) (occ_S g) (crash_active
    g) (crash_start g) (crash_sent_to_plc g) (t1_claims_b_until g) (auto_state g)
    (wait_until g) (T1 g) (T2 g).
Definition set_scada_mode_manual (v : bool) (g : game) : game :=
  Game (plc_connected g) (last_plc g) (mode_auto g) v (need_resync g)
    (prev_comms_enabled g) (auto_write_hold_until g) (sig_ab g) (sig_bc g) (sig_sb g)
    (turnout_to_main g) (estop g) (occ_A g) (occ_B g) (occ_C g) (occ_S g) (crash_active
    g) (crash_start g) (crash_sent_to_plc g) (t1_claims_b_until g) (auto_state g)
    (wait_until g) (T1 g) (T2 g).
Definition set_need_resync (v : bool) (g : game) : game :=
  Game (plc_connected g) (last_plc g) (mode_auto g) (scada_mode_manual g) v
    (prev_comms_enabled g) (auto_write_hold_until g) (sig_ab g) (sig_bc g) (sig_sb g)
    (turnout_to_main g) (estop g) (occ_A g) (occ_B g) (occ_C g) (occ_S g) (crash_active
    g) (crash_start g) (crash_sent_to_plc g) (t1_claims_b_until g) (auto_state g)
    (wait_until g) (T1 g) (T2 g).
Definition set_prev_comms_enabled (v : bool) (g : game) : game :=
  Game (plc_connected g) (last_plc g) (mode_auto g) (scada_mode_manual g) (need_resync
    g) v (auto_write_hold_until g) (sig_ab g) (sig_bc g) (sig_sb g) (turnout_to_main g)
    (estop g) (occ_A g) (occ_B g) (occ_C g) (occ_S g) (crash_active g) (crash_start g)
    (crash_sent_to_plc g) (t1_claims_b_until g) (auto_state g) (wait_until g) (T1 g) (T2
    g).
Definition set_auto_write_hold_until (v : Z) (g : game) : game :=
  Game (plc_connected g) (last_plc g) (mode_auto g) (scada_mode_manual g) (need_resync
    g) (prev_comms_enabled g) v (sig_ab g) (sig_bc g) (sig_sb g) (turnout_to_main g)
    (estop g) (occ_A g) (occ_B g) (occ_C g) (occ_S g) (crash_active g) (crash_start g)
    (crash_sent_to_plc g) (t1_claims_b_until g) (auto_state g) (wait_until g) (T1 g) (T2
    g).
Definition set_sig_ab (v : Z) (g : game) : game :=
  Game (plc_connected g) (last_plc g) (mode_auto g) (scada_mode_manual g) (need_resync
    g) (prev_comms_enabled g) (auto_write_hold_until g) v (sig_bc g) (sig_sb g)
    (turnout_to_main g) (estop g) (occ_A g) (occ_B g) (occ_C g) (occ_S g) (crash_active
    g) (crash_start g) (crash_sent_to_plc g) (t1_claims_b_until g) (auto_state g)
    (wait_until g) (T1 g) (T2 g).
Definition set_sig_bc (v : Z) (g : game) : game :=
  Game (plc_connected g) (last_plc g) (mode_auto g) (scada_mode_manual g) (need_resync
    g) (prev_comms_enabled g) (auto_write_hold_until g) (sig_ab g) v (sig_sb g)
    (turnout_to_main g) (estop g) (occ_A g) (occ_B g) (occ_C g) (occ_S g) (crash_active
    g) (crash_start g) (crash_sent_to_plc g) (t1_claims_b_until g) (auto_state g)
    (wait_until g) (T1 g) (T2 g).
Definition set_sig_sb (v : Z) (g : game) : game :=
  Game (plc_connected g) (last_plc g) (mode_auto g) (scada_mode_manual g) (need_resync
    g) (prev_comms_enabled g) (auto_write_hold_until g) (sig_ab g) (sig_bc g) v
    (turnout_to_main g) (estop g) (occ_A g) (occ_B g) (occ_C g) (occ_S g) (crash_active
    g) (crash_start g) (crash_sent_to_plc g) (t1_claims_b_until g) (auto_state g)
    (wait_until g) (T1 g) (T2 g).
Definition set_turnout_to_main (v : bool) (g : game) : game :=
  Game (plc_connected g) (last_plc g) (mode_auto g) (scada_mode_manual g) (need_resync
    g) (prev_comms_enabled g) (auto_write_hold_until g) (sig_ab g) (sig_bc g) (sig_sb g)
    v (estop g) (occ_A g) (occ_B g) (occ_C g) (occ_S g) (crash_active g) (crash_start g)
    (crash_sent_to_plc g) (t1_claims_b_until g) (auto_state g) (wait_until g) (T1 g) (T2
    g).
Definition set_estop (v : Z) (g : game) : game :=
  Game (plc_connected g) (last_plc g) (mode_auto g) (scada_mode_manual g) (need_resync
    g) (prev_comms_enabled g) (auto_write_hold_until g) (sig_ab g) (sig_bc g) (sig_sb g)
    (turnout_to_main g) v (occ_A g) (occ_B g) (occ_C g) (occ_S g) (crash_active g)
    (crash_start g) (crash_sent_to_plc g) (t1_claims_b_until g) (auto_state g)
    (wait_until g) (T1 g) (T2 g).
Definition set_occ_A (v : Z) (g : game) : game :=
  Game (plc_connected g) (last_plc g) (mode_auto g) (scada_mode_manual g) (need_resync
    g) (prev_comms_enabled g) (auto_write_hold_until g) (sig_ab g) (sig_bc g) (sig_sb g)
    (turnout_to_main g) (estop g) v (occ_B g) (occ_C g) (occ_S g) (crash_active g)
    (crash_start g) (crash_sent_to_plc g) (t1_claims_b_until g) (auto_state g)
    (wait_until g) (T1 g) (T2 g).
Definition set_occ_B (v : Z) (g : game) : game :=
  Game (plc_connected g) (last_plc g) (mode_auto g) (scada_mode_manual g) (need_resync
    g) (prev_comms_enabled g) (auto_write_hold_until g) (sig_ab g) (sig_bc g) (sig_sb g)
    (turnout_to_main g) (estop g) (occ_A g) v (occ_C g) (occ_S g) (crash_active g)
    (crash_start g) (crash_sent_to_plc g) (t1_claims_b_until g) (auto_state g)
    (wait_until g) (T1 g) (T2 g).
Definition set_occ_C (v : Z) (g : game) : game :=
  Game (plc_connected g) (last_plc g) (mode_auto g) (scada_mode_manual g) (need_resync
    g) (prev_comms_enabled g) (auto_write_hold_until g) (sig_ab g) (sig_bc g) (sig_sb g)
    (turnout_to_main g) (estop g) (occ_A g) (occ_B g) v (occ_S g) (crash_active g)
    (crash_start g) (crash_sent_to_plc g) (t1_claims_b_until g) (auto_state g)
    (wait_until g) (T1 g) (T2 g).
Definition set_occ_S (v : Z) (g : game) : game :=
  Game (plc_connected g) (last_plc g) (mode_auto g) (scada_mode_manual g) (need_resync
    g) (prev_comms_enabled g) (auto_write_hold_until g) (sig_ab g) (sig_bc g) (sig_sb g)
    (turnout_to_main g) (estop g) (occ_A g) (occ_B g) (occ_C g) v (crash_active g)
    (crash_start g) (crash_sent_to_plc g) (t1_claims_b_until g) (auto_state g)
    (wait_until g) (T1 g) (T2 g).
Definition set_crash_active (v : bool) (g : game) : game :=
  Game (plc_connected g) (last_plc g) (mode_auto g) (scada_mode_manual g) (need_resync
    g) (prev_comms_enabled g) (auto_write_hold_until g) (sig_ab g) (sig_bc g) (sig_sb g)
    (turnout_to_main g) (estop g) (occ_A g) (occ_B g) (occ_C g) (occ_S g) v (crash_start
    g) (crash_sent_to_plc g) (t1_claims_b_until g) (auto_state g) (wait_until g) (T1 g)
    (T2 g).
Definition set_crash_start (v : Z) (g : game) : game :=
  Game (plc_connected g) (last_plc g) (mode_auto g) (scada_mode_manual g) (need_resync
    g) (prev_comms_enabled g) (auto_write_hold_until g) (sig_ab g) (sig_bc g) (sig_sb g)
    (turnout_to_main g) (estop g) (occ_A g) (occ_B g) (occ_C g) (occ_S g) (crash_active
    g) v (crash_sent_to_plc g) (t1_claims_b_until g) (auto_state g) (wait_until g) (T1
    g) (T2 g).
Definition set_crash_sent_to_plc (v : bool) (g : game) : game :=
  Game (plc_connected g) (last_plc g) (mode_auto g) (scada_mode_manual g) (need_resync
    g) (prev_comms_enabled g) (auto_write_hold_until g) (sig_ab g) (sig_bc g) (sig_sb g)
    (turnout_to_main g) (estop g) (occ_A g) (occ_B g) (occ_C g) (occ_S g) (crash_active
    g) (crash_start g) v (t1_claims_b_until g) (auto_state g) (wait_until g) (T1 g) (T2
    g).
Definition set_t1_claims_b_until (v : Z) (g : game) : game :=
  Game (plc_connected g) (last_plc g) (mode_auto g) (scada_mode_manual g) (need_resync
    g) (prev_comms_enabled g) (auto_write_hold_until g) (sig_ab g) (sig_bc g) (sig_sb g)
    (turnout_to_main g) (estop g) (occ_A g) (occ_B g) (occ_C g) (occ_S g) (crash_active
    g) (crash_start g) (crash_sent_to_plc g) v (auto_state g) (wait_until g) (T1 g) (T2
    g).
Definition set_auto_state (v : auto_phase) (g : game) : game :=
  Game (plc_connected g) (last_plc g) (mode_auto g) (scada_mode_manual g) (need_resync
    g) (prev_comms_enabled g) (auto_write_hold_until g) (sig_ab g) (sig_bc g) (sig_sb g)
    (turnout_to_main g) (estop g) (occ_A g) (occ_B g) (occ_C g) (occ_S g) (crash_active
    g) (crash_start g) (crash_sent_to_plc g) (t1_claims_b_until g) v (wait_until g) (T1
    g) (T2 g).
Definition set_wait_until (v : Z) (g : game) : game :=
  Game (plc_connected g) (last_plc g) (mode_auto g) (scada_mode_manual g) (need_resync
    g) (prev_comms_enabled g) (auto_write_hold_until g) (sig_ab g) (sig_bc g) (sig_sb g)
    (turnout_to_main g) (estop g) (occ_A g) (occ_B g) (occ_C g) (occ_S g) (crash_active
    g) (crash_start g) (crash_sent_to_plc g) (t1_claims_b_until g) (auto_state g) v (T1
    g) (T2 g).
Definition set_T1 (v : train) (g : game) : game :=
  Game (plc_connected g) (last_plc g) (mode_auto g) (scada_mode_manual g) (need_resync
    g) (prev_comms_enabled g) (auto_write_hold_until g) (sig_ab g) (sig_bc g) (sig_sb g)
    (turnout_to_main g) (estop g) (occ_A g) (occ_B g) (occ_C g) (occ_S g) (crash_active
    g) (crash_start g) (crash_sent_to_plc g) (t1_claims_b_until g) (auto_state g)
    (wait_until g) v (T2 g).
Definition set_T2 (v : train) (g : game) : game :=
  Game (plc_connected g) (last_plc g) (mode_auto g) (scada_mode_manual g) (need_resync
    g) (prev_comms_enabled g) (auto_write_hold_until g) (sig_ab g) (sig_bc g) (sig_sb g)
    (turnout_to_main g) (estop g) (occ_A g) (occ_B g) (occ_C g) (occ_S g) (crash_active
    g) (crash_start g) (crash_sent_to_plc g) (t1_claims_b_until g) (auto_state g)
    (wait_until g) (T1 g) v.

Definition get_train (k : train_key) (g : game) : train :=
  match k with KT1 => T1 g | KT2 => T2 g end.
Definition set_train (k : train_key) (t : train) (g : game) : game :=
  match k with KT1 => set_T1 t g | KT2 => set_T2 t g end.

(** What the client sends to the PLC. *)
Inductive request : Type :=
  | Connect
  | ReadCoils (addr count : nat)
  | ReadHolding (addr count : nat)
  | WriteRegisters (addr : nat) (values : list Z)
  | WriteCoils (addr : nat) (values : list Z).

Definition is_write (r : request) : bool :=
  match r with
  | WriteRegisters _ _ | WriteCoils _ _ => true
  | _ => false
  end.

(** The game, the PLC at the other end of the connection (reachable or not,
    and its store), and the requests sent so far, oldest first. *)
Record world : Type := World {
  gm : game;
  link_up : bool;
  remote : Plc.store;
  sent : list request
}.

(** Computations of the main loop. Every exception of the client is caught
    where it is raised, so they always return. *)
Definition G (A : Type) : Type := world → A * world.

#[export] Instance G_ret : MRet G := λ A (x : A) w, (x, w).
#[export] Instance G_bind : MBind G := λ A B (f : A → G B) (m : G A) w,
  let '(x, w1) := m w in f x w1.

Definition get : G game := λ w, (gm w, w).
Definition upd (f : game → game) : G unit := λ w,
  (tt, World (f (gm w)) (link_up w) (remote w) (sent w)).
Definition send (r : request) : G unit := λ w,
  (tt, World (gm w) (link_up w) (remote w) (sent w ++ [r])).
Definition link : G bool := λ w, (link_up w, w).
Definition peer : G Plc.store := λ w, (remote w, w).
Definition set_peer (st : Plc.store) : G unit := λ w,
  (tt, World (gm w) (link_up w) st (sent w)).
Definition when (c : bool) (m : G unit) : G unit := if c then m else mret tt.

(** The PLC's answer to a read of [count] values from [addr], [None] when the
    range leaves the block; and a block after a write of [values] at [addr]
    (unchanged when the range leaves the block). *)
Definition read_range (l : list Z) (addr count : nat) : option (list Z) :=
  if decide (addr + count ≤ length l)%nat then Some (take count (drop addr l))
  else None.

Definition write_range (l : list Z) (addr : nat) (values : list Z) : list Z :=
  if decide (addr + length values ≤ length l)%nat
  then take addr l ++ values ++ drop (addr + length values) l
  else l.

(** *** [PlcClient] *)

Definition connect : G bool :=
  send Connect;;
  up ← link;
  upd (set_plc_connected up);;
  mret up.

Definition close : G unit := upd (set_plc_connected false).

(** [if not plc.connected: plc.close(); plc.connect()] *)
Definition reconnect_if_needed : G unit :=
  g ← get;
  when (negb (plc_connected g)) (close;; _ ← connect; mret tt).

Definition read_coils_basic : G (Z * Z) :=
  g ← get;
  if negb (plc_connected g) then mret (1, 0)
  else
    send (ReadCoils CO_TURNOUT_MAIN 2);;
    up ← link;
    if negb up then upd (set_plc_connected false);; mret (1, 0)
    else
      st ← peer;
      match read_range (Plc.co st) CO_TURNOUT_MAIN 2 with
      | Some [b0; b1] => mret (Plc.b b0, Plc.b b1)
      | _ => mret (1, 0)
      end.

Definition read_holding (addr count : nat) : G (option (list Z)) :=
  g ← get;
  if negb (plc_connected g) then mret None
  else
    send (ReadHolding addr count);;
    up ← link;
    if negb up then upd (set_plc_connected false);; mret None
    else st ← peer; mret (read_range (Plc.hr st) addr count).

Definition write_registers (addr : nat) (values : list Z) : G bool :=
  g ← get;
  if negb (plc_connected g) then mret false
  else
    send (WriteRegisters addr values);;
    up ← link;
    if negb up then upd (set_plc_connected false);; mret false
    else
      st ← peer;
      set_peer (Plc.Store (Plc.co st) (write_range (Plc.hr st) addr values));;
      mret true.

Definition write_inputs (occA occB occC crash : Z) : G bool :=
  write_registers HR_IN_OCC_A [occA; occB; occC; crash].

Definition write_signals (ab bc sb : Z) : G bool :=
  write_registers HR_SIG_AB [ab; bc; sb].

Definition write_crash_only (crash_bit : Z) : G bool :=
  write_registers HR_IN_CRASH [if crash_bit =? 0 then 0 else 1].

Definition toggle_turnout : G unit :=
  g ← get;
  when (plc_connected g)
    (send (ReadCoils CO_TURNOUT_MAIN 1);;
     up ← link;
     if negb up then upd (set_plc_connected false)
     else
       st ← peer;
       match read_range (Plc.co st) CO_TURNOUT_MAIN 1 with
       | Some [cur] =>
           let v := if Plc.b cur =? 0 then 1 else 0 in
           send (WriteCoils CO_TURNOUT_MAIN [v]);;
           set_peer (Plc.Store (write_range (Plc.co st) CO_TURNOUT_MAIN [v])
                               (Plc.hr st))
       | _ => mret tt
       end).

(** *** The closures of [main] *)

Definition effective_manual (g : game) : bool :=
  if crash_active g then false
  else negb (mode_auto g) || scada_mode_manual g.

Definition in_wait_window (now_t : Z) (g : game) : bool :=
  if crash_active g then false else now_t <? wait_until g.

Definition comms_enabled (now_t : Z) (g : game) : bool :=
  if crash_active g then true else negb (in_wait_window now_t g).

Definition set_all_signals_red (g : game) : game :=
  set_sig_sb RED (set_sig_bc RED (set_sig_ab RED g)).

Definition sync_from_plc_apply : G bool :=
  reconnect_if_needed;;
  g ← get;
  if negb (plc_connected g) then mret false
  else
    '(tm, es) ← read_coils_basic;
    upd (λ g, set_estop es (set_turnout_to_main (negb (tm =? 0)) g));;
    regs_mode ← read_holding HR_MODE 1;
    match regs_mode with
    | Some (m :: _) => upd (set_scada_mode_manual (negb (m =? 0)))
    | _ => mret tt
    end;;
    regs_sig ← read_holding HR_SIG_AB 3;
    match regs_sig with
    | Some (r0 :: r1 :: r2 :: _) =>
        upd (λ g, set_sig_sb (Z.land r2 1)
                    (set_sig_bc (Z.land r1 1) (set_sig_ab (Z.land r0 1) g)))
    | _ => mret tt
    end;;
    regs_occ ← read_holding HR_OVR_OCC_BASE 4;
    match regs_occ with
    | Some (o0 :: o1 :: o2 :: o3 :: _) =>
        upd (λ g, set_occ_S (Z.land o3 1) (set_occ_C (Z.land o2 1)
                    (set_occ_B (Z.land o1 1) (set_occ_A (Z.land o0 1) g))))
    | _ => mret tt
    end;;
    mret true.

Definition start_move (k : train_key) (now : Z) (dest_loc : place) (g : game) : game :=
  let tr := get_train k g in
  set_train k (Train (loc tr) true now dest_loc) g.

Definition start_move_line := start_move.
Definition start_move_t2_s_to_b (now : Z) : game → game := start_move KT2 now B.
Definition start_move_t2_b_to_s (now : Z) : game → game := start_move KT2 now S.

Definition other_train (k : train_key) : train_key :=
  match k with KT1 => KT2 | KT2 => KT1 end.

Definition finish_move (k : train_key) (now : Z) (g : game) : game :=
  let tr := get_train k g in
  let other := get_train (other_train k) g in
  if bool_decide (dest tr = B) &&
     (bool_decide (loc other = B) || (moving other && bool_decide (dest other = B)))
  then
    let g := set_crash_active true g in
    let g := set_crash_sent_to_plc false g in
    let g := set_crash_start now g in
    let g := set_mode_auto true g in
    let g := set_scada_mode_manual false g in
    let g := set_all_signals_red g in
    let g := set_train k (Train CRASH false (move_start tr) (dest tr)) g in
    set_train (other_train k)
      (Train CRASH false (move_start other) (dest other)) g
  else
    set_train k (Train (dest tr) false (move_start tr) NoPlace) g.

(** The trains that have arrived, in the order of the dictionary, are finished
    one after the other as long as no crash is active. *)
Definition arrived (now_t : Z) (t : train) : bool :=
  moving t && (MOVE_DURATION_SEC <=? now_t - move_start t).

Definition update_train_positions (now_t : Z) (g : game) : game :=
  let a1 := arrived now_t (T1 g) in
  let a2 := arrived now_t (T2 g) in
  let g := if a1 && negb (crash_active g) then finish_move KT1 now_t g else g in
  if a2 && negb (crash_active g) then finish_move KT2 now_t g else g.

Definition recompute_occ_auto (g : game) : game :=
  let g := set_occ_A (if bool_decide (loc (T1 g) = A) then 1 else 0) g in
  let g := set_occ_C (if bool_decide (loc (T1 g) = C) then 1 else 0) g in
  let g := set_occ_B (if bool_decide (loc (T1 g) = B) || bool_decide (loc (T2 g) = B)
                      then 1 else 0) g in
  set_occ_S (if bool_decide (loc (T2 g) = S) then 1 else 0) g.

Definition reset_all (now : Z) (g : game) : game :=
  let g := set_crash_active false g in
  let g := set_crash_sent_to_plc false g in
  let g := set_crash_start 0 g in
  let g := set_all_signals_red g in
  let g := set_mode_auto true g in
  let g := set_scada_mode_manual false g in
  let g := set_t1_claims_b_until 0 g in
  let g := set_auto_write_hold_until 0 g in
  let g := set_T1 (Train A false (move_start (T1 g)) NoPlace) g in
  let g := set_T2 (Train S false (move_start (T2 g)) NoPlace) g in
  let g := recompute_occ_auto g in
  let g := set_auto_state AUTO_INIT_WAIT g in
  set_wait_until (now + WAIT_SEC) g.

Definition set_signals (ab bc sb : Z) (g : game) : game :=
  set_sig_sb sb (set_sig_bc bc (set_sig_ab ab g)).

Definition at_rest (t : train) (p : place) : bool :=
  negb (moving t) && bool_decide (loc t = p).

(** The movement part of the loop: the automatic cycle, ... *)
Definition auto_sequence (now : Z) (g : game) : game :=
  match auto_state g with
  | AUTO_INIT_WAIT =>
      if wait_until g <=? now
      then set_all_signals_red (set_auto_state AUTO_T1_A_TO_C g)
      else g
  | AUTO_T1_A_TO_C =>
      if at_rest (T1 g) A then
        start_move_line KT1 now B
          (set_t1_claims_b_until (now + JUNCTION_HEADWAY_SEC)
             (set_signals GREEN RED RED g))
      else if at_rest (T1 g) B then
        start_move_line KT1 now C (set_signals RED GREEN RED g)
      else if at_rest (T1 g) C then
        set_auto_state AUTO_T2_S_TO_B (set_all_signals_red g)
      else g
  | AUTO_T2_S_TO_B =>
      if at_rest (T2 g) S && turnout_to_main g && (t1_claims_b_until g <=? now) then
        start_move_t2_s_to_b now (set_signals RED RED GREEN g)
      else if at_rest (T2 g) B then
        set_wait_until (now + WAIT_SEC)
          (set_auto_state AUTO_WAIT_AT_B (set_all_signals_red g))
      else g
  | AUTO_WAIT_AT_B =>
      if wait_until g <=? now then set_auto_state AUTO_T2_B_TO_S g else g
  | AUTO_T2_B_TO_S =>
      if at_rest (T2 g) B && turnout_to_main g then
        start_move_t2_b_to_s now (set_signals RED RED GREEN g)
      else if at_rest (T2 g) S then
        set_auto_state AUTO_T1_C_TO_A (set_all_signals_red g)
      else g
  | AUTO_T1_C_TO_A =>
      if at_rest (T1 g) C then
        start_move_line KT1 now B (set_signals RED GREEN RED g)
      else if at_rest (T1 g) B then
        start_move_line KT1 now A (set_signals GREEN RED RED g)
      else if at_rest (T1 g) A then
        set_wait_until (now + WAIT_SEC)
          (set_auto_state AUTO_WAIT_AT_A (set_all_signals_red g))
      else g
  | AUTO_WAIT_AT_A =>
      if wait_until g <=? now then set_auto_state AUTO_T1_A_TO_C g else g
  end.

(** ... or, in manual mode, the moves the commanded signals allow. *)
Definition manual_moves (now : Z) (g : game) : game :=
  let g :=
    if at_rest (T1 g) A && (sig_ab g =? GREEN) then start_move_line KT1 now B g
    else if at_rest (T1 g) B && (sig_bc g =? GREEN) then start_move_line KT1 now C g
    else if at_rest (T1 g) C && (sig_bc g =? GREEN) then start_move_line KT1 now B g
    else if at_rest (T1 g) B && (sig_ab g =? GREEN) then start_move_line KT1 now A g
    else g in
  if turnout_to_main g then
    if at_rest (T2 g) S && (sig_sb g =? GREEN) then start_move_t2_s_to_b now g
    else if at_rest (T2 g) B && (sig_sb g =? GREEN) then start_move_t2_b_to_s now g
    else g
  else g.

Definition movement (now : Z) (g : game) : game :=
  if negb (crash_active g) && (estop g =? 0) then
    let g := if negb (effective_manual g) then auto_sequence now g
             else manual_moves now g in
    update_train_positions now g
  else g.

(** *** One turn of the main loop *)

(** The crash bit is pushed as soon as a crash is active, whatever the wait
    window says. *)
Definition crash_push : G unit :=
  g ← get;
  when (crash_active g && negb (crash_sent_to_plc g))
    (reconnect_if_needed;;
     g ← get;
     when (plc_connected g)
       (_ ← write_crash_only 1; upd (set_crash_sent_to_plc true))).

(** The polling block, [if comms_on and (now - last_plc) >= PLC_POLL_SEC]. *)
Definition plc_comms (comms_on : bool) (now : Z) : G unit :=
  g ← get;
  when (comms_on && (PLC_POLL_SEC <=? now - last_plc g))
    (upd (set_last_plc now);;
     reconnect_if_needed;;
     g ← get;
     when (need_resync g && negb (crash_active g))
       (ok ← sync_from_plc_apply;
        when ok (upd (set_auto_write_hold_until (now + PUBLISH_HOLD_SEC)));;
        upd (set_need_resync false));;
     g ← get;
     when (plc_connected g)
       ('(tm, es) ← read_coils_basic;
        upd (λ g, set_estop es (set_turnout_to_main (negb (tm =? 0)) g));;
        m ← read_holding HR_MODE 1;
        match m with
        | Some (m0 :: _) => upd (set_scada_mode_manual (negb (m0 =? 0)))
        | _ => mret tt
        end;;
        g ← get;
        when (effective_manual g && negb (crash_active g))
          (_ ← sync_from_plc_apply; mret tt);;
        g ← get;
        when (negb (effective_manual g) && negb (crash_active g)
              && (auto_write_hold_until g <=? now))
          (upd recompute_occ_auto;;
           g ← get;
           _ ← write_inputs (occ_A g) (occ_B g) (occ_C g) 0;
           _ ← write_signals (sig_ab g) (sig_bc g) (sig_sb g);
           mret tt))).

(** The events of one frame, as [pygame.event.get()] returns them. *)
Inductive event : Type := QUIT | K_ESCAPE | K_SPACE | K_m | K_t | OtherEvent.

#[export] Instance event_eq_dec : EqDecision event.
Proof. solve_decision. Defined.

(** The result says whether the program has exited ([sys.exit()]). *)
Definition handle_event (comms_on : bool) (now : Z) (e : event) : G bool :=
  match e with
  | QUIT | K_ESCAPE => close;; mret true
  | K_SPACE => upd (reset_all now);; mret false
  | K_m =>
      upd (λ g,
        if crash_active g then g
        else
          let g := set_mode_auto (negb (mode_auto g)) g in
          if mode_auto g then set_need_resync true g else g);;
      mret false
  | K_t =>
      g ← get;
      when (comms_on && negb (crash_active g)) toggle_turnout;;
      mret false
  | OtherEvent => mret false
  end.

Fixpoint handle_events (comms_on : bool) (now : Z) (events : list event) : G bool :=
  match events with
  | [] => mret false
  | e :: rest =>
      handle_event comms_on now e ≫= λ exited : bool,
        if exited then mret true else handle_events comms_on now rest
  end.

Definition crash_reset (now : Z) : G unit :=
  g ← get;
  when (crash_active g && (CRASH_DURATION <=? now - crash_start g))
    (reconnect_if_needed;;
     g ← get;
     when (plc_connected g) (_ ← write_crash_only 0; mret tt);;
     upd (reset_all now)).

(** The body of [while True], for the clock reading [now] and the events of
    the frame. [comms_on] is computed once, at the top. *)
Definition tick (now : Z) (events : list event) : G bool :=
  g ← get;
  let comms_on := comms_enabled now g in
  upd (λ g, set_prev_comms_enabled comms_on
              (if negb (prev_comms_enabled g) && comms_on
               then set_need_resync true g else g));;
  crash_push;;
  plc_comms comms_on now;;
  handle_events comms_on now events ≫= λ exited : bool,
    if exited then mret true
    else
      crash_reset now;;
      upd (movement now);;
      mret false.

(** [main] up to the loop: the variables as they are initialised, the first
    connection, [reset_all()]. *)
Definition initial_game : game :=
  Game false 0 true false false true 0 RED RED RED true 0 1 0 0 1 false 0 false 0
       AUTO_INIT_WAIT 0 (Train A false 0 NoPlace) (Train S false 0 NoPlace).

Definition startup (now : Z) : G unit :=
  _ ← connect;
  upd (reset_all now).

Definition initial_world (now : Z) (plc : Plc.store) : world :=
  snd (startup now (World initial_game true plc [])).

(** *** Runs *)

(** What happens around the game: a turn of its loop, a scan of the PLC, a
    write by another client of the PLC (the operator's SCADA, the attacker),
    the connection going down or coming back. *)
Inductive step : Type :=
  | Tick (now : Z) (events : list event)
  | Scan
  | RemoteHr (addr : nat) (v : Z)
  | RemoteCo (addr : nat) (v : Z)
  | Link (up : bool).

Definition do_step (s : step) (w : world) : world :=
  match s with
  | Tick now events => snd (tick now events w)
  | Scan =>
      match Plc.plc_logic_scan (remote w) with
      | Some (_, st, _) => World (gm w) (link_up w) st (sent w)
      | None => w
      end
  | RemoteHr addr v => World (gm w) (link_up w) (Plc.with_hr (remote w) addr v) (sent w)
  | RemoteCo addr v => World (gm w) (link_up w) (Plc.with_co (remote w) addr v) (sent w)
  | Link up => World (gm w) up (remote w) (sent w)
  end.

Definition run (steps : list step) (w : world) : world :=
  foldl (λ w s, do_step s w) w steps.

(** The requests a computation sends from a world on. *)
Definition requests_of {A : Type} (m : G A) (w : world) : list request :=
  drop (length (sent w)) (sent (snd (m w))).

(** The write of the crash register alone. *)
Definition is_crash_write (r : request) : bool :=
  match r with
  | WriteRegisters addr [_] => bool_decide (addr = HR_IN_CRASH)
  | _ => false
  end.

(** A specification of a computation of the loop: from a game that satisfies
    [pre], whatever the PLC holds and whether it is reachable or not, the
    requests it sends all satisfy [P], and the result and the game it leaves
    satisfy [post]. *)
Definition triple {A : Type} (pre : game → Prop) (m : G A)
    (P : request → Prop) (post : A → game → Prop) : Prop :=
  ∀ w, pre (gm w) →
    ∃ l, sent (snd (m w)) = sent w ++ l ∧ Forall P l ∧
         post (fst (m w)) (gm (snd (m w))).

(** What may be sent: nothing at all; no write other than that of the crash
    register. *)
Definition nothing (r : request) : Prop := False.
Definition crash_writes_only (r : request) : Prop :=
  is_write r = true → is_crash_write r = true.

(** A property of the game that the client's bookkeeping of its connection
    does not disturb. *)
Definition stable (I : game → Prop) : Prop :=
  ∀ v g, I g → I (set_plc_connected v g).

(** The run that ends in a collision inside a wait window, from the start of
    the program at time 0 against the PLC as [main] sets it up. The game runs
    its automatic cycle, polled every 100 ms, the PLC scanning in between.
    At 8.1 s, as train 2 is about to reach the junction, the operator
    switches to manual; the attacker then writes signal BC = 1 and signal
    SB = 0, so that train 1 leaves C for the junction at 8.3 s; at 8.4 s the
    operator switches back to automatic, and the cycle, finding train 2 at
    rest in B, opens a wait window until 11.4 s. Train 1 reaches B at 9.9 s:
    collision. These times are those of the model, which compares integer
    milliseconds: on a grid of 100 ms some comparisons of the source, made on
    floats ([now - last_plc >= 0.10] at 3.3 s), fall the other way, and the
    source given the same readings and keys collides at another time. What
    is stated on [collided] needs only that a crash is active in it and not
    yet pushed to the PLC. *)
Definition polls_from (t0 : Z) (n : nat) : list step :=
  flat_map (λ i, [Tick (t0 + 100 * Z.of_nat i) []; Scan]) (seq 0 n).

Definition collision_run : list step :=
  polls_from 0 81 ++
  [Tick 8100 [K_m]; Scan; Tick 8200 []; Scan;
   RemoteHr 1 1; RemoteHr 2 0; Tick 8300 []; Scan;
   Tick 8400 [K_m]; Scan] ++
  polls_from 8500 15.

Definition collided : world :=
  run collision_run (initial_world 0 Plc.initial_store).

(** An ordinary moment of the automatic cycle, four seconds after the start. *)
Definition cruising : world :=
  run (polls_from 0 40) (initial_world 0 Plc.initial_store).

(** The same moment, the operator having just switched to manual. *)
Definition manual_cruising : world := run [Tick 4000 [K_m]; Scan] cruising.

(** A moment of the automatic cycle on a clock whose readings are exact in
    binary floating point: a turn of the loop every 250 ms from the start of
    the program, the PLC scanning in between, up to 4 s. Train 1 is on its
    way from A to the junction. *)
Definition quarter_polls (n : nat) : list step :=
  flat_map (λ i, [Tick (250 * Z.of_nat i) []; Scan]) (seq 0 n).

Definition under_way : world :=
  run (quarter_polls 17) (initial_world 0 Plc.initial_store).



(** The collision rule of [finish_move], on its own: the train bound for B
    finds the other train in B, or moving towards B. *)
Definition collides (k : train_key) (g : game) : bool :=
  let tr := get_train k g in
  let other := get_train (other_train k) g in
  bool_decide (dest tr = B) &&
  (bool_decide (loc other = B) || (moving other && bool_decide (dest other = B))).

(** A property of the game that survives everything a resynchronisation
    writes into the game: the connection flag, the coils, the mode request,
    the signals and the occupancy. *)
Definition survives_sync (I : game → Prop) : Prop :=
  stable I ∧
  (∀ es tm g, I g → I (set_estop es (set_turnout_to_main tm g))) ∧
  (∀ m g, I g → I (set_scada_mode_manual m g)) ∧
  (∀ a b c g, I g → I (set_sig_sb c (set_sig_bc b (set_sig_ab a g)))) ∧
  (∀ a b c d g, I g → I (set_occ_S d (set_occ_C c (set_occ_B b (set_occ_A a g))))).

(** No write at all may be sent; anything may be sent. *)
Definition reads_only (r : request) : Prop := is_write r = false.
Definition anything (r : request) : Prop := True.

(** Where the trains can be: train 1 on the main line, train 2 on the siding
    or at the junction. *)
Definition T1_places (p : place) : Prop := p = A ∨ p = B ∨ p = C.
Definition T2_places (p : place) : Prop := p = S ∨ p = B.

(** The state of the trains and of the crash flag fit together: either a crash
    is active, both trains are wrecked and at rest and every signal is red;
    or no crash is active, each train is at one of its places and, when it
    moves, bound for one of them, and the two are not both in block B. *)
Definition coherent (g : game) : Prop :=
  if crash_active g then
    loc (T1 g) = CRASH ∧ loc (T2 g) = CRASH ∧
    moving (T1 g) = false ∧ moving (T2 g) = false ∧
    sig_ab g = RED ∧ sig_bc g = RED ∧ sig_sb g = RED
  else
    T1_places (loc (T1 g)) ∧ T2_places (loc (T2 g)) ∧
    ¬ (loc (T1 g) = B ∧ loc (T2 g) = B) ∧
    (moving (T1 g) = true → T1_places (dest (T1 g))) ∧
    (moving (T2 g) = true → T2_places (dest (T2 g))).

End Game.

Module PlcTheory.
Import Plc.

#[local] Arguments hr_get : simpl never.
#[local] Arguments hr_set : simpl never.
#[local] Arguments co_get : simpl never.
#[local] Arguments co_set : simpl never.

(** *** Running the primitives on a store that holds the address *)

Lemma hr_get_run a st :
  (a < length (hr st))%nat → hr_get a st = Some (hr st !!! a, st, [ReadHr a]).
Proof.
  intros Ha. unfold hr_get. by rewrite (list_lookup_lookup_total_lt _ _ Ha).
Qed.

Lemma co_get_run a st :
  (a < length (co st))%nat → co_get a st = Some (co st !!! a, st, [ReadCo a]).
Proof.
  intros Ha. unfold co_get. by rewrite (list_lookup_lookup_total_lt _ _ Ha).
Qed.

Lemma hr_set_run a v st :
  (a < length (hr st))%nat →
  hr_set a v st = Some (tt, with_hr st a v, [WriteHr a v]).
Proof. intros Ha. unfold hr_set. by rewrite decide_True. Qed.

Lemma co_set_run a v st :
  (a < length (co st))%nat →
  co_set a v st = Some (tt, with_co st a (b v), [WriteCo a (b v)]).
Proof. intros Ha. unfold co_set. by rewrite decide_True. Qed.

Lemma b_zero v : (b v =? 0) = (v =? 0).
Proof. unfold b. by destruct (v =? 0). Qed.

Ltac in_range :=
  unfold covers_map, CO_TURNOUT_MAIN, CO_ESTOP, HR_SIG_AB, HR_SIG_BC, HR_SIG_SB,
    HR_IN_OCC_A, HR_IN_OCC_B, HR_IN_OCC_C, HR_IN_CRASH, HR_MODE in *;
  cbn [with_hr with_co hr co]; rewrite ?length_insert; lia.

Ltac run_store :=
  repeat first
    [ rewrite hr_get_run by in_range
    | rewrite co_get_run by in_range
    | rewrite hr_set_run by in_range
    | rewrite co_set_run by in_range
    | progress change (b 0) with 0
    | progress change (b 1) with 1
    | progress cbn beta iota delta [app occA occB occC crash] ].

Ltac unfold_scan :=
  unfold plc_logic_scan, read_inputs, fmap, M_fmap, mbind, M_bind, mret, M_ret.

(** C1. When the crash register (holding register 103) is not zero, one scan
    sets the emergency-stop coil (coil 1) to 1 and the three signal registers
    (0, 1, 2) to 0 and does nothing else: it reads the mode and the four
    inputs, makes these four writes, and leaves every other coil and register
    as it was. *)
Theorem scan_crash_forces_stop st :
  covers_map st →
  hr st !!! HR_IN_CRASH ≠ 0 →
  ∃ st',
    plc_logic_scan st =
      Some (tt, st',
            [ReadHr HR_MODE; ReadHr HR_IN_OCC_A; ReadHr HR_IN_OCC_B;
             ReadHr HR_IN_OCC_C; ReadHr HR_IN_CRASH;
             WriteCo CO_ESTOP 1; WriteHr HR_SIG_AB 0; WriteHr HR_SIG_BC 0;
             WriteHr HR_SIG_SB 0]) ∧
    co st' !!! CO_ESTOP = 1 ∧
    hr st' !!! HR_SIG_AB = 0 ∧ hr st' !!! HR_SIG_BC = 0 ∧ hr st' !!! HR_SIG_SB = 0 ∧
    co st' = <[CO_ESTOP := 1]> (co st) ∧
    hr st' = <[HR_SIG_SB := 0]> (<[HR_SIG_BC := 0]> (<[HR_SIG_AB := 0]> (hr st))).
Proof.
  intros Hc Hk. eexists. split.
  - unfold_scan. run_store.
    rewrite b_zero. apply Z.eqb_neq in Hk. rewrite Hk. cbn [negb].
    run_store. reflexivity.
  - cbn [with_hr with_co hr co]. repeat split.
    + apply list_lookup_total_insert_eq. in_range.
    + rewrite !list_lookup_total_insert_ne by done.
      apply list_lookup_total_insert_eq. in_range.
    + rewrite list_lookup_total_insert_ne by done.
      apply list_lookup_total_insert_eq. in_range.
    + apply list_lookup_total_insert_eq. in_range.
Qed.

Lemma scan_crash_forces_stop_witness :
  ∃ st',
    plc_logic_scan (with_hr initial_store HR_IN_CRASH 1) =
      Some (tt, st',
            [ReadHr HR_MODE; ReadHr HR_IN_OCC_A; ReadHr HR_IN_OCC_B;
             ReadHr HR_IN_OCC_C; ReadHr HR_IN_CRASH;
             WriteCo CO_ESTOP 1; WriteHr HR_SIG_AB 0; WriteHr HR_SIG_BC 0;
             WriteHr HR_SIG_SB 0]) ∧
    co st' !!! CO_ESTOP = 1 ∧
    hr st' !!! HR_SIG_AB = 0 ∧ hr st' !!! HR_SIG_BC = 0 ∧ hr st' !!! HR_SIG_SB = 0 ∧
    co st' = <[CO_ESTOP := 1]> (co (with_hr initial_store HR_IN_CRASH 1)) ∧
    hr st' = <[HR_SIG_SB := 0]> (<[HR_SIG_BC := 0]> (<[HR_SIG_AB := 0]>
               (hr (with_hr initial_store HR_IN_CRASH 1)))).
Proof.
  apply (scan_crash_forces_stop (with_hr initial_store HR_IN_CRASH 1)).
  - split; vm_compute; lia.
  - vm_compute. discriminate.
Defined.

(** *** Scans without a crash *)

(** The autonomous path, as one equation: emergency stop cleared, turnout
    forced when B is occupied, the three signals computed. *)
Lemma scan_auto_run st :
  covers_map st →
  hr st !!! HR_IN_CRASH = 0 →
  hr st !!! HR_MODE = 0 →
  ∃ log,
    plc_logic_scan st =
      Some (tt,
            Store (if hr st !!! HR_IN_OCC_B =? 0
                   then <[CO_ESTOP := 0]> (co st)
                   else <[CO_TURNOUT_MAIN := 1]> (<[CO_ESTOP := 0]> (co st)))
                  (<[HR_SIG_SB :=
                       if hr st !!! HR_IN_OCC_B =? 0
                       then (if co st !!! CO_TURNOUT_MAIN =? 0 then 0 else 1)
                       else 0]>
                     (<[HR_SIG_BC := if hr st !!! HR_IN_OCC_C =? 0 then 1 else 0]>
                        (<[HR_SIG_AB := if hr st !!! HR_IN_OCC_B =? 0 then 1 else 0]>
                           (hr st)))),
            log).
Proof.
  intros Hc Hk Hm.
  unfold_scan. run_store.
  rewrite Hk, Hm, !b_zero. cbn [b clamp01 Z.eqb negb].
  run_store.
  assert (Ht : <[CO_ESTOP:=0]> (co st) !!! CO_TURNOUT_MAIN = co st !!! CO_TURNOUT_MAIN)
    by (by apply list_lookup_total_insert_ne).
  destruct (hr st !!! HR_IN_OCC_B =? 0) eqn:Hb; cbn [negb];
    destruct (hr st !!! HR_IN_OCC_C =? 0) eqn:Hcc; run_store.
  all: cbn [with_co with_hr co hr]; rewrite ?Ht.
  all: try destruct (co st !!! CO_TURNOUT_MAIN =? 0) eqn:Hco; cbn [negb Z.eqb andb b].
  all: eexists; reflexivity.
Qed.

(** C2. With crash register 0 and mode register 0 (autonomous), after one scan:
    signal AB is 1 iff occupancy B is 0; signal BC is 1 iff occupancy C is 0;
    signal SB is 1 iff occupancy B is 0 and the turnout coil, as it stands
    after the occupied-junction override, reads as main. Each signal is 0 or
    1. *)
Theorem scan_auto_signals st :
  covers_map st →
  hr st !!! HR_IN_CRASH = 0 →
  hr st !!! HR_MODE = 0 →
  ∃ st' log,
    plc_logic_scan st = Some (tt, st', log) ∧
    (hr st' !!! HR_SIG_AB = 1 ↔ hr st !!! HR_IN_OCC_B = 0) ∧
    (hr st' !!! HR_SIG_BC = 1 ↔ hr st !!! HR_IN_OCC_C = 0) ∧
    (hr st' !!! HR_SIG_SB = 1 ↔
       hr st !!! HR_IN_OCC_B = 0 ∧ turnout_main_of st' = 1) ∧
    (∀ a, a = HR_SIG_AB ∨ a = HR_SIG_BC ∨ a = HR_SIG_SB →
          hr st' !!! a = 0 ∨ hr st' !!! a = 1).
Proof.
  intros Hc Hk Hm.
  destruct (scan_auto_run st Hc Hk Hm) as [log Hrun].
  eexists _, log. split; [exact Hrun|].
  unfold turnout_main_of. cbn [co hr].
  assert (H0 : ∀ x y z, <[HR_SIG_SB:=x]> (<[HR_SIG_BC:=y]> (<[HR_SIG_AB:=z]> (hr st)))
                        !!! HR_SIG_AB = z).
  { intros. rewrite !list_lookup_total_insert_ne by done.
    apply list_lookup_total_insert_eq. in_range. }
  assert (H1 : ∀ x y z, <[HR_SIG_SB:=x]> (<[HR_SIG_BC:=y]> (<[HR_SIG_AB:=z]> (hr st)))
                        !!! HR_SIG_BC = y).
  { intros. rewrite list_lookup_total_insert_ne by done.
    apply list_lookup_total_insert_eq. in_range. }
  assert (H2 : ∀ x y z, <[HR_SIG_SB:=x]> (<[HR_SIG_BC:=y]> (<[HR_SIG_AB:=z]> (hr st)))
                        !!! HR_SIG_SB = x).
  { intros. apply list_lookup_total_insert_eq. in_range. }
  assert (Ht : <[CO_ESTOP:=0]> (co st) !!! CO_TURNOUT_MAIN = co st !!! CO_TURNOUT_MAIN)
    by (by apply list_lookup_total_insert_ne).
  assert (Ht1 : <[CO_TURNOUT_MAIN:=1]> (<[CO_ESTOP:=0]> (co st)) !!! CO_TURNOUT_MAIN = 1).
  { apply list_lookup_total_insert_eq. in_range. }
  rewrite H0, H1, H2.
  destruct (Z.eqb_spec (hr st !!! HR_IN_OCC_B) 0) as [Hb|Hb];
    destruct (Z.eqb_spec (hr st !!! HR_IN_OCC_C) 0) as [Hcc|Hcc];
    rewrite ?Ht, ?Ht1;
    destruct (Z.eqb_spec (co st !!! CO_TURNOUT_MAIN) 0) as [Hco|Hco].
  all: repeat split; try (intros; lia); try tauto.
  all: try (intros a [-> | [-> | ->]]; rewrite ?H0, ?H1, ?H2; lia).
Qed.

Lemma scan_auto_signals_witness :
  ∃ st' log,
    plc_logic_scan initial_store = Some (tt, st', log) ∧
    (hr st' !!! HR_SIG_AB = 1 ↔ hr initial_store !!! HR_IN_OCC_B = 0) ∧
    (hr st' !!! HR_SIG_BC = 1 ↔ hr initial_store !!! HR_IN_OCC_C = 0) ∧
    (hr st' !!! HR_SIG_SB = 1 ↔
       hr initial_store !!! HR_IN_OCC_B = 0 ∧ turnout_main_of st' = 1) ∧
    (∀ a, a = HR_SIG_AB ∨ a = HR_SIG_BC ∨ a = HR_SIG_SB →
          hr st' !!! a = 0 ∨ hr st' !!! a = 1).
Proof.
  apply (scan_auto_signals initial_store).
  - split; vm_compute; lia.
  - reflexivity.
  - reflexivity.
Defined.

(** C3, as stated, fails: with the crash register set, the scan returns before
    it looks at the turnout. On [crashed_at_B] (occupancy B = 1, crash = 1,
    turnout coil 0) the coil is still 0 after the scan. *)
Lemma scan_crash_skips_turnout :
  ¬ (∀ st, covers_map st → hr st !!! HR_IN_OCC_B = 1 →
           ∃ st' log, plc_logic_scan st = Some (tt, st', log) ∧
                      co st' !!! CO_TURNOUT_MAIN = 1).
Proof.
  intros H.
  destruct (H crashed_at_B) as (st' & log & Hrun & Hco).
  - split; vm_compute; lia.
  - reflexivity.
  - vm_compute in Hrun. injection Hrun as <- _.
    vm_compute in Hco. discriminate.
Qed.

(** C3, amended. With the crash register 0 and occupancy B not zero, one scan
    sets the turnout coil (coil 0) to 1, whatever it was before and whatever
    the mode is. *)
Theorem scan_forces_turnout st :
  covers_map st →
  hr st !!! HR_IN_CRASH = 0 →
  hr st !!! HR_IN_OCC_B ≠ 0 →
  ∃ st' log,
    plc_logic_scan st = Some (tt, st', log) ∧
    co st' !!! CO_TURNOUT_MAIN = 1 ∧
    In (WriteCo CO_TURNOUT_MAIN 1) log.
Proof.
  intros Hc Hk Hb.
  unfold_scan. run_store.
  rewrite Hk, !b_zero. apply Z.eqb_neq in Hb. rewrite Hb. cbn [Z.eqb negb].
  run_store.
  assert (Ht : ∀ l : list Z, (CO_ESTOP < length l)%nat →
                <[CO_TURNOUT_MAIN:=1]> l !!! CO_TURNOUT_MAIN = 1).
  { intros. apply list_lookup_total_insert_eq. in_range. }
  destruct (clamp01 (hr st !!! HR_MODE) =? 1); run_store.
  all: eexists _, _; split; [reflexivity|]; cbn [with_hr with_co co hr].
  all: split; [apply Ht; rewrite length_insert; apply Hc | cbn; tauto].
Qed.

Lemma scan_forces_turnout_witness :
  ∃ st' log,
    plc_logic_scan occupied_B_siding = Some (tt, st', log) ∧
    co st' !!! CO_TURNOUT_MAIN = 1 ∧
    In (WriteCo CO_TURNOUT_MAIN 1) log.
Proof.
  apply (scan_forces_turnout occupied_B_siding).
  - split; vm_compute; lia.
  - reflexivity.
  - vm_compute. discriminate.
Defined.

(** *** Supervised mode *)

Lemma clamp01_bit v : v = 0 ∨ v = 1 → clamp01 v = v.
Proof. by intros [-> | ->]. Qed.

(** One supervised scan: the signal registers are clamped in place, every other
    holding register is kept. *)
Lemma scan_supervised_step st :
  covers_map st →
  hr st !!! HR_IN_CRASH = 0 →
  hr st !!! HR_MODE = 1 →
  ∃ st' log,
    plc_logic_scan st = Some (tt, st', log) ∧
    covers_map st' ∧
    hr st' = <[HR_SIG_SB := clamp01 (hr st !!! HR_SIG_SB)]>
               (<[HR_SIG_BC := clamp01 (hr st !!! HR_SIG_BC)]>
                  (<[HR_SIG_AB := clamp01 (hr st !!! HR_SIG_AB)]> (hr st))) ∧
    (∀ a v, In (WriteHr a v) log →
            (a = HR_SIG_AB ∨ a = HR_SIG_BC ∨ a = HR_SIG_SB) ∧
            v = clamp01 (hr st !!! a)).
Proof.
  intros Hc Hk Hm.
  unfold_scan. run_store.
  rewrite Hk, Hm, !b_zero. change (clamp01 1 =? 1) with true.
  cbn [Z.eqb negb].
  assert (H1 : ∀ (l : list Z) x, <[HR_SIG_AB:=x]> l !!! HR_SIG_BC = l !!! HR_SIG_BC).
  { intros. by apply list_lookup_total_insert_ne. }
  assert (H2 : ∀ (l : list Z) x y,
             <[HR_SIG_BC:=y]> (<[HR_SIG_AB:=x]> l) !!! HR_SIG_SB = l !!! HR_SIG_SB).
  { intros. by rewrite !list_lookup_total_insert_ne. }
  destruct (hr st !!! HR_IN_OCC_B =? 0); cbn [negb]; run_store;
    cbn [with_hr with_co co hr]; rewrite H1, H2.
  all: eexists _, _; split; [reflexivity|]; cbn [co hr].
  all: split; [in_range|]; split; [reflexivity|].
  all: intros a v Hin; cbn in Hin.
  all: repeat (destruct Hin as [Hin | Hin]; [try discriminate|]); try done.
  all: injection Hin as <- <-; tauto.
Qed.

(** C5. In supervised mode (mode register 1, crash register 0) a scan writes
    to each signal register its own value clamped to 0 or 1 and nothing
    computed from occupancy; so when the three signal registers hold 0 or 1,
    any number of scans in a row leaves them as they were. *)
Theorem scan_supervised_keeps_signals st :
  covers_map st →
  hr st !!! HR_IN_CRASH = 0 →
  hr st !!! HR_MODE = 1 →
  (∃ st' log,
     plc_logic_scan st = Some (tt, st', log) ∧
     hr st' !!! HR_SIG_AB = clamp01 (hr st !!! HR_SIG_AB) ∧
     hr st' !!! HR_SIG_BC = clamp01 (hr st !!! HR_SIG_BC) ∧
     hr st' !!! HR_SIG_SB = clamp01 (hr st !!! HR_SIG_SB) ∧
     (∀ a v, In (WriteHr a v) log →
             (a = HR_SIG_AB ∨ a = HR_SIG_BC ∨ a = HR_SIG_SB) ∧
             v = clamp01 (hr st !!! a))) ∧
  ((hr st !!! HR_SIG_AB = 0 ∨ hr st !!! HR_SIG_AB = 1) →
   (hr st !!! HR_SIG_BC = 0 ∨ hr st !!! HR_SIG_BC = 1) →
   (hr st !!! HR_SIG_SB = 0 ∨ hr st !!! HR_SIG_SB = 1) →
   ∀ n, ∃ st' log,
     scan_cycles n st = Some (tt, st', log) ∧
     hr st' !!! HR_SIG_AB = hr st !!! HR_SIG_AB ∧
     hr st' !!! HR_SIG_BC = hr st !!! HR_SIG_BC ∧
     hr st' !!! HR_SIG_SB = hr st !!! HR_SIG_SB).
Proof.
  intros Hc Hk Hm. split.
  - destruct (scan_supervised_step st Hc Hk Hm) as (st' & log & Hrun & _ & Hhr & Hw).
    exists st', log. split; [exact Hrun|]. rewrite Hhr.
    split; [|split; [|split; [|exact Hw]]].
    + rewrite !list_lookup_total_insert_ne by done.
      apply list_lookup_total_insert_eq. in_range.
    + rewrite list_lookup_total_insert_ne by done.
      apply list_lookup_total_insert_eq. in_range.
    + apply list_lookup_total_insert_eq. in_range.
  - intros H0 H1 H2 n. revert st Hc Hk Hm H0 H1 H2.
    induction n as [|n IH]; intros st Hc Hk Hm H0 H1 H2.
    + exists st, []. by repeat split.
    + destruct (scan_supervised_step st Hc Hk Hm) as (st1 & l1 & Hrun & Hc1 & Hhr & _).
      rewrite !clamp01_bit in Hhr by done.
      rewrite (list_insert_id (hr st) HR_SIG_AB), (list_insert_id (hr st) HR_SIG_BC),
        (list_insert_id (hr st) HR_SIG_SB) in Hhr
        by (apply list_lookup_lookup_total_lt; in_range).
      destruct (IH st1) as (st2 & l2 & Hrun2 & E0 & E1 & E2);
        rewrite ?Hhr; try done.
      exists st2, (l1 ++ l2). rewrite <- Hhr. split; [|done].
      cbn [scan_cycles]. unfold mbind, M_bind. by rewrite Hrun, Hrun2.
Qed.

Lemma scan_supervised_keeps_signals_witness :
  (∃ st' log,
     plc_logic_scan supervised_010 = Some (tt, st', log) ∧
     hr st' !!! HR_SIG_AB = clamp01 (hr supervised_010 !!! HR_SIG_AB) ∧
     hr st' !!! HR_SIG_BC = clamp01 (hr supervised_010 !!! HR_SIG_BC) ∧
     hr st' !!! HR_SIG_SB = clamp01 (hr supervised_010 !!! HR_SIG_SB) ∧
     (∀ a v, In (WriteHr a v) log →
             (a = HR_SIG_AB ∨ a = HR_SIG_BC ∨ a = HR_SIG_SB) ∧
             v = clamp01 (hr supervised_010 !!! a))) ∧
  ((hr supervised_010 !!! HR_SIG_AB = 0 ∨ hr supervised_010 !!! HR_SIG_AB = 1) →
   (hr supervised_010 !!! HR_SIG_BC = 0 ∨ hr supervised_010 !!! HR_SIG_BC = 1) →
   (hr supervised_010 !!! HR_SIG_SB = 0 ∨ hr supervised_010 !!! HR_SIG_SB = 1) →
   ∀ n, ∃ st' log,
     scan_cycles n supervised_010 = Some (tt, st', log) ∧
     hr st' !!! HR_SIG_AB = hr supervised_010 !!! HR_SIG_AB ∧
     hr st' !!! HR_SIG_BC = hr supervised_010 !!! HR_SIG_BC ∧
     hr st' !!! HR_SIG_SB = hr supervised_010 !!! HR_SIG_SB).
Proof.
  apply (scan_supervised_keeps_signals supervised_010).
  - split; vm_compute; lia.
  - reflexivity.
  - reflexivity.
Defined.

(** *** Occupancy A does not flow into the scan *)

Lemma blind_ret {A} (x : A) : occA_blind (mret x).
Proof. by intros st v. Qed.

Lemma blind_bind {A B} (m : M A) (f : A → M B) :
  occA_blind m → (∀ x, occA_blind (f x)) → occA_blind (m ≫= f).
Proof.
  intros Hm Hf st v. unfold mbind, M_bind. rewrite Hm.
  destruct (m st) as [[[x s1] l1]|]; [|done]. cbn [outcome_with_hr].
  rewrite Hf. by destruct (f x s1) as [[[y s2] l2]|].
Qed.

Lemma blind_hr_get a : a ≠ HR_IN_OCC_A → occA_blind (hr_get a).
Proof.
  intros Ha st v. unfold hr_get, with_hr. cbn [hr].
  rewrite list_lookup_insert_ne by done. by destruct (hr st !! a).
Qed.

Lemma blind_hr_set a x : a ≠ HR_IN_OCC_A → occA_blind (hr_set a x).
Proof.
  intros Ha st v. unfold hr_set, with_hr. cbn [hr co].
  rewrite length_insert. case_decide; [|done]. cbn [outcome_with_hr with_hr hr co].
  by rewrite list_insert_insert_ne.
Qed.

Lemma blind_co_get a : occA_blind (co_get a).
Proof. intros st v. unfold co_get, with_hr. cbn [co]. by destruct (co st !! a). Qed.

Lemma blind_co_set a x : occA_blind (co_set a x).
Proof. intros st v. unfold co_set, with_hr. cbn [co hr]. by case_decide. Qed.

Create HintDb blind.
#[local] Hint Resolve blind_ret blind_bind blind_hr_get blind_hr_set
  blind_co_get blind_co_set : blind.
#[local] Hint Extern 1 (_ ≠ _) => discriminate : blind.

(** The inputs read from the two stores differ in [occA] only. *)
Lemma read_inputs_occA st v :
  (HR_IN_OCC_A < length (hr st))%nat →
  read_inputs (with_hr st HR_IN_OCC_A v) =
    match read_inputs st with
    | Some (ins, s, l) =>
        Some (MkInputs (b v) (occB ins) (occC ins) (crash ins),
              with_hr s HR_IN_OCC_A v, l)
    | None => None
    end.
Proof.
  intros Hlen. unfold read_inputs, mbind, M_bind, mret, M_ret, hr_get, with_hr.
  cbn [hr co]. rewrite list_lookup_insert_eq by done.
  rewrite (list_lookup_lookup_total_lt (hr st) HR_IN_OCC_A) by done.
  cbn beta iota delta [hr co]. rewrite list_lookup_insert_ne by done.
  destruct (hr st !! HR_IN_OCC_B); [|done].
  cbn beta iota delta [hr co]. rewrite list_lookup_insert_ne by done.
  destruct (hr st !! HR_IN_OCC_C); [|done].
  cbn beta iota delta [hr co]. rewrite list_lookup_insert_ne by done.
  by destruct (hr st !! HR_IN_CRASH).
Qed.

Lemma read_inputs_short st :
  (length (hr st) ≤ HR_IN_OCC_A)%nat → read_inputs st = None.
Proof.
  intros Hlen. unfold read_inputs, mbind, M_bind, hr_get.
  by rewrite (lookup_ge_None_2 (hr st) HR_IN_OCC_A).
Qed.

(** Reading the inputs and going on with a continuation that does not look
    at [occA]. *)
Lemma blind_after_inputs {B} (K : Inputs → M B) :
  (∀ ins, occA_blind (K ins)) →
  (∀ a a' o c k, K (MkInputs a o c k) = K (MkInputs a' o c k)) →
  occA_blind (read_inputs ≫= K).
Proof.
  intros HK Hsame st v. unfold mbind, M_bind.
  destruct (decide (HR_IN_OCC_A < length (hr st))%nat) as [Hlen|Hlen].
  - rewrite read_inputs_occA by done.
    destruct (read_inputs st) as [[[[a o c k] s1] l1]|]; [|done].
    cbn [occB occC crash]. rewrite HK, (Hsame (b v) a).
    by destruct (K (MkInputs a o c k) s1) as [[[y s2] l2]|].
  - assert (Hw : with_hr st HR_IN_OCC_A v = st).
    { destruct st as [c h]. unfold with_hr. cbn [hr co] in *.
      by rewrite list_insert_ge by lia. }
    rewrite Hw, read_inputs_short by lia. done.
Qed.

Lemma blind_fmap {A B} (f : A → B) (m : M A) :
  occA_blind m → occA_blind (f <$> m).
Proof. intros Hm. unfold fmap, M_fmap. auto with blind. Qed.

(** C10. Occupancy A (holding register 100) is read and never used: run on two
    stores that differ in that register only, the scan raises on both or on
    neither, makes the same accesses with the same written values, and leaves
    final stores that again differ in that register only. *)
Theorem scan_ignores_occA st v :
  plc_logic_scan (with_hr st HR_IN_OCC_A v) =
    outcome_with_hr HR_IN_OCC_A v (plc_logic_scan st).
Proof.
  revert st v. change (occA_blind plc_logic_scan). unfold plc_logic_scan.
  apply blind_bind; [apply blind_fmap; auto with blind|].
  intros mode. apply blind_after_inputs; [|reflexivity].
  intros [a o c k]. cbn [occB occC crash].
  destruct (negb (k =? 0)), (negb (o =? 0)), (mode =? 1); auto 20 with blind.
Qed.

(** *** The scan on any store that holds the address map *)

(** The final store of a scan, in closed form: the coils and the three signal
    registers as the branches of the scan leave them. *)
Lemma scan_closed_form st :
  covers_map st →
  ∃ log,
    plc_logic_scan st =
      Some (tt,
            Store
              (if hr st !!! HR_IN_CRASH =? 0
               then (if hr st !!! HR_IN_OCC_B =? 0
                     then <[CO_ESTOP := 0]> (co st)
                     else <[CO_TURNOUT_MAIN := 1]> (<[CO_ESTOP := 0]> (co st)))
               else <[CO_ESTOP := 1]> (co st))
              (<[HR_SIG_SB :=
                   if hr st !!! HR_IN_CRASH =? 0
                   then (if hr st !!! HR_MODE =? 0
                         then (if hr st !!! HR_IN_OCC_B =? 0
                               then (if co st !!! CO_TURNOUT_MAIN =? 0 then 0 else 1)
                               else 0)
                         else clamp01 (hr st !!! HR_SIG_SB))
                   else 0]>
                 (<[HR_SIG_BC :=
                      if hr st !!! HR_IN_CRASH =? 0
                      then (if hr st !!! HR_MODE =? 0
                            then (if hr st !!! HR_IN_OCC_C =? 0 then 1 else 0)
                            else clamp01 (hr st !!! HR_SIG_BC))
                      else 0]>
                    (<[HR_SIG_AB :=
                         if hr st !!! HR_IN_CRASH =? 0
                         then (if hr st !!! HR_MODE =? 0
                               then (if hr st !!! HR_IN_OCC_B =? 0 then 1 else 0)
                               else clamp01 (hr st !!! HR_SIG_AB))
                         else 0]>
                       (hr st)))),
            log).
Proof.
  intros Hc.
  unfold_scan. run_store. rewrite !b_zero.
  assert (Ht : <[CO_ESTOP:=0]> (co st) !!! CO_TURNOUT_MAIN = co st !!! CO_TURNOUT_MAIN)
    by (by apply list_lookup_total_insert_ne).
  assert (H1 : ∀ (l : list Z) x, <[HR_SIG_AB:=x]> l !!! HR_SIG_BC = l !!! HR_SIG_BC).
  { intros. by apply list_lookup_total_insert_ne. }
  assert (H2 : ∀ (l : list Z) x y,
             <[HR_SIG_BC:=y]> (<[HR_SIG_AB:=x]> l) !!! HR_SIG_SB = l !!! HR_SIG_SB).
  { intros. by rewrite !list_lookup_total_insert_ne. }
  destruct (hr st !!! HR_IN_CRASH =? 0) eqn:Hk; cbn [negb]; run_store;
    [|eexists; reflexivity].
  unfold clamp01 at 1.
  destruct (hr st !!! HR_IN_OCC_B =? 0) eqn:Hb; cbn [negb];
    destruct (hr st !!! HR_MODE =? 0) eqn:Hm; cbn [Z.eqb Pos.eqb]; run_store;
    cbn [with_co with_hr co hr]; rewrite ?Ht, ?H1, ?H2.
  all: try destruct (hr st !!! HR_IN_OCC_C =? 0) eqn:Hcc.
  all: try destruct (co st !!! CO_TURNOUT_MAIN =? 0) eqn:Hco; cbn [negb Z.eqb Pos.eqb andb].
  all: eexists; reflexivity.
Qed.


Ltac scan_lookups :=
  rewrite ?length_insert;
  repeat first
    [ rewrite list_lookup_total_insert_ne by done
    | rewrite list_lookup_total_insert_eq by in_range ].

(** On a store that holds the address map a scan does not raise, leaves both
    blocks at their length, and leaves the emergency-stop coil and the three
    signal registers at 0 or 1, whatever they held and whatever the mode. *)
Theorem scan_returns_bits st :
  covers_map st →
  ∃ st' log,
    plc_logic_scan st = Some (tt, st', log) ∧
    length (co st') = length (co st) ∧ length (hr st') = length (hr st) ∧
    (co st' !!! CO_ESTOP = 0 ∨ co st' !!! CO_ESTOP = 1) ∧
    (hr st' !!! HR_SIG_AB = 0 ∨ hr st' !!! HR_SIG_AB = 1) ∧
    (hr st' !!! HR_SIG_BC = 0 ∨ hr st' !!! HR_SIG_BC = 1) ∧
    (hr st' !!! HR_SIG_SB = 0 ∨ hr st' !!! HR_SIG_SB = 1).
Proof.
  intros Hc. destruct (scan_closed_form st Hc) as [log Hrun].
  eexists _, log. split; [exact Hrun|]. cbn [co hr].
  split; [by repeat case_match; rewrite !length_insert|].
  split; [by rewrite !length_insert|].
  scan_lookups. unfold clamp01.
  split; [repeat case_match; scan_lookups; lia|].
  repeat split; repeat case_match; lia.
Qed.

Lemma scan_returns_bits_witness :
  ∃ st' log,
    plc_logic_scan supervised_010 = Some (tt, st', log) ∧
    length (co st') = length (co supervised_010) ∧
    length (hr st') = length (hr supervised_010) ∧
    (co st' !!! CO_ESTOP = 0 ∨ co st' !!! CO_ESTOP = 1) ∧
    (hr st' !!! HR_SIG_AB = 0 ∨ hr st' !!! HR_SIG_AB = 1) ∧
    (hr st' !!! HR_SIG_BC = 0 ∨ hr st' !!! HR_SIG_BC = 1) ∧
    (hr st' !!! HR_SIG_SB = 0 ∨ hr st' !!! HR_SIG_SB = 1).
Proof.
  apply (scan_returns_bits supervised_010). split; vm_compute; lia.
Defined.

(** A scan writes coils 0 and 1 and holding registers 0, 1 and 2, and nothing
    else: the mode, the occupancy and crash inputs and every other coil and
    register are after the scan what they were before. *)
Theorem scan_frame st :
  covers_map st →
  ∃ st' log,
    plc_logic_scan st = Some (tt, st', log) ∧
    (∀ a, a ≠ CO_TURNOUT_MAIN → a ≠ CO_ESTOP → co st' !! a = co st !! a) ∧
    (∀ a, a ≠ HR_SIG_AB → a ≠ HR_SIG_BC → a ≠ HR_SIG_SB → hr st' !! a = hr st !! a).
Proof.
  intros Hc. destruct (scan_closed_form st Hc) as [log Hrun].
  eexists _, log. split; [exact Hrun|]. cbn [co hr]. split.
  - intros a H0 H1. repeat case_match; by rewrite !list_lookup_insert_ne.
  - intros a H0 H1 H2. by rewrite !list_lookup_insert_ne.
Qed.

Lemma scan_frame_witness :
  ∃ st' log,
    plc_logic_scan crashed_at_B = Some (tt, st', log) ∧
    (∀ a, a ≠ CO_TURNOUT_MAIN → a ≠ CO_ESTOP → co st' !! a = co crashed_at_B !! a) ∧
    (∀ a, a ≠ HR_SIG_AB → a ≠ HR_SIG_BC → a ≠ HR_SIG_SB →
          hr st' !! a = hr crashed_at_B !! a).
Proof.
  apply (scan_frame crashed_at_B). split; vm_compute; lia.
Defined.

(** After a scan the emergency-stop coil is 1 when the crash register is not
    zero and 0 when it is zero, in either mode. The turnout coil is 1 when
    the crash register is zero and occupancy B is not, and otherwise what it
    was: a scan never moves the turnout to the siding. *)
Theorem scan_estop_and_turnout st :
  covers_map st →
  ∃ st' log,
    plc_logic_scan st = Some (tt, st', log) ∧
    co st' !!! CO_ESTOP = b (hr st !!! HR_IN_CRASH) ∧
    co st' !!! CO_TURNOUT_MAIN =
      (if (hr st !!! HR_IN_CRASH =? 0) && negb (hr st !!! HR_IN_OCC_B =? 0)
       then 1 else co st !!! CO_TURNOUT_MAIN).
Proof.
  intros Hc. destruct (scan_closed_form st Hc) as [log Hrun].
  eexists _, log. split; [exact Hrun|]. cbn [co hr]. unfold b.
  split; repeat case_match; cbn [andb negb]; by scan_lookups.
Qed.

Lemma scan_estop_and_turnout_witness :
  ∃ st' log,
    plc_logic_scan occupied_B_siding = Some (tt, st', log) ∧
    co st' !!! CO_ESTOP = b (hr occupied_B_siding !!! HR_IN_CRASH) ∧
    co st' !!! CO_TURNOUT_MAIN =
      (if (hr occupied_B_siding !!! HR_IN_CRASH =? 0)
          && negb (hr occupied_B_siding !!! HR_IN_OCC_B =? 0)
       then 1 else co occupied_B_siding !!! CO_TURNOUT_MAIN).
Proof.
  apply (scan_estop_and_turnout occupied_B_siding). split; vm_compute; lia.
Defined.


(** The mode register is read as a flag: with the crash register 0, any value
    of the mode register other than 0 (1, 2, 65535) selects the supervised
    path, in which each signal register is written back clamped to 0 or 1 and
    occupancy is not looked at. *)
Theorem scan_nonzero_mode_is_supervised st :
  covers_map st →
  hr st !!! HR_IN_CRASH = 0 →
  hr st !!! HR_MODE ≠ 0 →
  ∃ st' log,
    plc_logic_scan st = Some (tt, st', log) ∧
    hr st' !!! HR_SIG_AB = clamp01 (hr st !!! HR_SIG_AB) ∧
    hr st' !!! HR_SIG_BC = clamp01 (hr st !!! HR_SIG_BC) ∧
    hr st' !!! HR_SIG_SB = clamp01 (hr st !!! HR_SIG_SB).
Proof.
  intros Hc Hk Hm. destruct (scan_closed_form st Hc) as [log Hrun].
  eexists _, log. split; [exact Hrun|]. cbn [co hr].
  apply Z.eqb_neq in Hm. rewrite Hk, Hm. cbn [Z.eqb].
  repeat split; by scan_lookups.
Qed.

Lemma scan_nonzero_mode_is_supervised_witness :
  ∃ st' log,
    plc_logic_scan (with_hr (with_hr initial_store HR_MODE 2) HR_SIG_BC 7) =
      Some (tt, st', log) ∧
    hr st' !!! HR_SIG_AB =
      clamp01 (hr (with_hr (with_hr initial_store HR_MODE 2) HR_SIG_BC 7) !!! HR_SIG_AB) ∧
    hr st' !!! HR_SIG_BC =
      clamp01 (hr (with_hr (with_hr initial_store HR_MODE 2) HR_SIG_BC 7) !!! HR_SIG_BC) ∧
    hr st' !!! HR_SIG_SB =
      clamp01 (hr (with_hr (with_hr initial_store HR_MODE 2) HR_SIG_BC 7) !!! HR_SIG_SB).
Proof.
  apply (scan_nonzero_mode_is_supervised
           (with_hr (with_hr initial_store HR_MODE 2) HR_SIG_BC 7)).
  - split; vm_compute; lia.
  - reflexivity.
  - vm_compute. discriminate.
Defined.

Lemma clamp01_idemp v : clamp01 (clamp01 v) = clamp01 v.
Proof. unfold clamp01. by destruct (v =? 0). Qed.

(** The store a scan leaves is a fixed point of the scan: as long as nobody
    else writes to the store, a second scan changes nothing. *)
Lemma scan_twice st :
  covers_map st →
  ∃ st' l1 l2,
    plc_logic_scan st = Some (tt, st', l1) ∧
    covers_map st' ∧
    plc_logic_scan st' = Some (tt, st', l2).
Proof.
  intros Hc. destruct (scan_closed_form st Hc) as [l1 Hrun].
  assert (Hid : ∀ (l : list Z) (i : nat) x, (i < length l)%nat → l !!! i = x →
                  <[i:=x]> l = l).
  { intros l i x Hi <-. apply list_insert_id. by apply list_lookup_lookup_total_lt. }
  destruct (hr st !!! HR_IN_CRASH =? 0) eqn:Hk;
    [destruct (hr st !!! HR_MODE =? 0) eqn:Hm;
     destruct (hr st !!! HR_IN_OCC_B =? 0) eqn:Hb|].
  all: match type of Hrun with _ = Some (_, ?s, _) => set (st1 := s) in * end.
  all: assert (Hc1 : covers_map st1) by (subst st1; cbn [co hr]; in_range).
  all: destruct (scan_closed_form st1 Hc1) as [l2 Hrun2].
  all: exists st1, l1, l2; split; [exact Hrun|]; split; [exact Hc1|].
  all: rewrite Hrun2; f_equal; f_equal; f_equal.
  all: subst st1; cbn [co hr]; scan_lookups; rewrite ?Hk, ?Hm, ?Hb, ?clamp01_idemp.
  all: cbn [Z.eqb]; f_equal.
  all: try apply list_insert_insert_eq.
  all: try (rewrite (list_insert_insert_ne _ CO_ESTOP CO_TURNOUT_MAIN) by done;
            by rewrite !list_insert_insert_eq).
  all: match goal with
       | |- _ = ?L =>
           rewrite (Hid L HR_SIG_AB), (Hid L HR_SIG_BC), (Hid L HR_SIG_SB);
           try done; try in_range; by scan_lookups
       end.
Qed.

(** For any number of scans in a row, once the first is done the store no
    longer changes: [n + 1] scans leave the store that one scan leaves. *)
Theorem scan_cycles_settle st n :
  covers_map st →
  ∃ st' l1 ln,
    plc_logic_scan st = Some (tt, st', l1) ∧
    scan_cycles (S n) st = Some (tt, st', ln).
Proof.
  intros Hc. destruct (scan_twice st Hc) as (st' & l1 & l2 & Hrun & Hc' & Hfix).
  exists st', l1. 
  assert (Hn : ∀ k, ∃ lk, scan_cycles k st' = Some (tt, st', lk)).
  { induction k as [|k [lk IH]]; [by exists []|].
    exists (l2 ++ lk). cbn [scan_cycles]. unfold mbind, M_bind. by rewrite Hfix, IH. }
  destruct (Hn n) as [lk Hk]. exists (l1 ++ lk). split; [done|].
  cbn [scan_cycles]. unfold mbind, M_bind. by rewrite Hrun, Hk.
Qed.

Lemma scan_cycles_settle_witness :
  ∃ st' l1 ln,
    plc_logic_scan occupied_B_siding = Some (tt, st', l1) ∧
    scan_cycles 5 occupied_B_siding = Some (tt, st', ln).
Proof.
  apply (scan_cycles_settle occupied_B_siding 4). split; vm_compute; lia.
Defined.


End PlcTheory.

Module GatewayTheory.
Import Gateway.

Lemma byte_val_nonneg x : 0 ≤ byte_val x.
Proof. unfold byte_val. lia. Qed.

Lemma u16be_nonneg hi lo : 0 ≤ u16be hi lo.
Proof. unfold u16be. pose proof (byte_val_nonneg hi). pose proof (byte_val_nonneg lo). lia. Qed.

(** A complete frame, taken apart. *)
Lemma complete_frame_inv f :
  complete_frame f →
  ∃ t1 t2 p1 p2 l1 l2 u fc pdu,
    f = t1 :: t2 :: p1 :: p2 :: l1 :: l2 :: u :: fc :: pdu ∧
    Z.of_nat (length f) = 6 + u16be l1 l2.
Proof.
  intros (len & Hlen & H2 & Hsize).
  unfold frame_len, unpack_HHHB in Hlen. rewrite drop_0 in Hlen.
  destruct f as [|t1 [|t2 [|p1 [|p2 [|l1 [|l2 [|u [|fc pdu]]]]]]]];
    cbn in Hlen; try discriminate.
  - injection Hlen as <-. cbn [length] in Hsize. lia.
  - injection Hlen as <-. eauto 12.
Qed.

(** *** The loop *)

(** The loop never runs out of the fuel [process_modbus_payload] gives it. *)
Lemma parse_loop_fuel fuel data offset tid out :
  (length data - offset < fuel)%nat →
  is_Some (parse_loop fuel data offset tid out).
Proof.
  revert offset tid out.
  induction fuel as [|fuel IH]; intros offset tid out Hfuel; [lia|].
  cbn [parse_loop].
  destruct (Z.leb_spec (Z.of_nat offset) (Z.of_nat (length data) - 7)) as [Hin|Hout];
    [|by eexists].
  destruct (unpack_HHHB data offset) as [[[[t pid] len] unit]|] eqn:Hhdr; [|by eexists].
  assert (0 ≤ len).
  { unfold unpack_HHHB in Hhdr.
    destruct (drop offset data) as [|? [|? [|? [|? [|l1 [|l2 [|? ?]]]]]]];
      try discriminate.
    injection Hhdr as _ _ <- _. apply u16be_nonneg. }
  destruct (rewrite_frame _); [by eexists|].
  apply IH. lia.
Qed.

(** The parsing loop ends on every buffer: each frame it accepts moves the
    offset on by at least six bytes, so [process_modbus_payload] always
    returns, with the rewritten bytes or with an exception, and never spins. *)
Theorem process_modbus_payload_returns data tid :
  is_Some (process_modbus_payload data tid).
Proof. apply parse_loop_fuel. lia. Qed.

(** One turn of the loop on a complete frame that sits at [offset]. *)
Lemma parse_loop_step fuel pre f rest tid out o :
  complete_frame f →
  forwarded_as f o →
  parse_loop (S fuel) (pre ++ f ++ rest) (length pre) tid out =
    parse_loop fuel ((pre ++ f) ++ rest) (length (pre ++ f))
               (default tid (frame_tid f)) (out ++ o).
Proof.
  intros Hf Ho.
  destruct (complete_frame_inv f Hf)
    as (t1 & t2 & p1 & p2 & l1 & l2 & u & fc & pdu & -> & Hsize).
  set (f := t1 :: t2 :: p1 :: p2 :: l1 :: l2 :: u :: fc :: pdu) in *.
  cbn [parse_loop].
  assert (Hlen : (8 ≤ length f)%nat) by (subst f; cbn [length]; lia).
  rewrite !length_app.
  destruct (Z.leb_spec (Z.of_nat (length pre))
              (Z.of_nat (length pre + (length f + length rest)) - 7)); [|lia].
  unfold unpack_HHHB. rewrite drop_app_length.
  change (f ++ rest) with (t1 :: t2 :: p1 :: p2 :: l1 :: l2 :: u :: (fc :: pdu) ++ rest).
  cbn beta iota.
  replace (Z.to_nat (6 + u16be l1 l2)) with (length f) by lia.
  change (t1 :: t2 :: p1 :: p2 :: l1 :: l2 :: u :: (fc :: pdu) ++ rest) with (f ++ rest).
  rewrite take_app_length. unfold forwarded_as in Ho. rewrite Ho.
  rewrite <- (app_assoc pre f rest). reflexivity.
Qed.

(** At the end of the buffer: fewer than seven bytes are left, ... *)
Lemma parse_loop_short_tail fuel pre tail tid out :
  (length tail < 7)%nat →
  parse_loop (S fuel) (pre ++ tail) (length pre) tid out = Some (tid, inr out).
Proof.
  intros Hlen. cbn [parse_loop]. rewrite length_app.
  by destruct (Z.leb_spec (Z.of_nat (length pre))
                 (Z.of_nat (length pre + length tail) - 7)); [lia|].
Qed.

(** ... or a header and a part of what its length field announces. *)
Lemma parse_loop_partial_tail fuel pre tail len tid out :
  frame_len tail = Some len →
  Z.of_nat (length tail) < 6 + len →
  parse_loop (S (S fuel)) (pre ++ tail) (length pre) tid out =
    match rewrite_frame tail with
    | inl e => Some (default tid (frame_tid tail), inl e)
    | inr o => Some (default tid (frame_tid tail), inr (out ++ o))
    end.
Proof.
  intros Hhdr Hshort.
  unfold frame_len, unpack_HHHB in Hhdr. rewrite drop_0 in Hhdr.
  destruct tail as [|t1 [|t2 [|p1 [|p2 [|l1 [|l2 [|u pdu]]]]]]] eqn:Etail;
    try discriminate.
  cbn in Hhdr. injection Hhdr as <-. rewrite <- Etail in *.
  assert (Hlen : (7 ≤ length tail)%nat) by (subst tail; cbn [length]; lia).
  cbn [parse_loop]. rewrite !length_app.
  destruct (Z.leb_spec (Z.of_nat (length pre))
              (Z.of_nat (length pre + length tail) - 7)); [|lia].
  unfold unpack_HHHB at 1. rewrite drop_app_length.
  rewrite Etail at 1. cbn beta iota.
  rewrite (take_ge tail) by lia.
  assert (Htid : frame_tid tail = Some (u16be t1 t2)) by (by rewrite Etail).
  rewrite Htid. cbn [default].
  destruct (rewrite_frame tail); [done|].
  by destruct (Z.leb_spec (Z.of_nat (length pre + Z.to_nat (6 + u16be l1 l2)))
                 (Z.of_nat (length pre + length tail) - 7)); [lia|].
Qed.

(** Back-to-back complete frames are taken one after the other. *)
Lemma parse_loop_frames frames outs :
  Forall complete_frame frames →
  Forall2 forwarded_as frames outs →
  ∀ fuel pre rest tid out,
    parse_loop (length frames + fuel) (pre ++ concat frames ++ rest) (length pre) tid out =
      parse_loop fuel ((pre ++ concat frames) ++ rest) (length (pre ++ concat frames))
                 (last_tid frames tid) (out ++ concat outs).
Proof.
  intros Hc Hfw. induction Hfw as [|f o frames outs Hfo Hfw IH];
    intros fuel pre rest tid out.
  - cbn. by rewrite !app_nil_r.
  - apply Forall_cons in Hc as [Hf Hc].
    cbn [concat length Nat.add last_tid foldl]. rewrite <- (app_assoc f).
    rewrite (parse_loop_step _ _ _ _ _ _ o Hf Hfo), (IH Hc).
    by rewrite <- !(app_assoc pre f), <- (app_assoc out o).
Qed.

Lemma frames_fuel (frames : list (list byte)) :
  Forall complete_frame frames → (length frames ≤ length (concat frames))%nat.
Proof.
  induction 1 as [|f frames Hf _ IH]; [done|].
  destruct (complete_frame_inv f Hf) as (?&?&?&?&?&?&?&?&?&->&_).
  cbn [concat length] in *. rewrite length_app. cbn [length]. lia.
Qed.

(** *** The body of the loop on one well-formed frame *)

Lemma unpack_HH_tail f off :
  unpack_HH (drop 7 f) off = unpack_HH f (7 + off).
Proof. unfold unpack_HH. by rewrite drop_drop. Qed.

Lemma rewrite_frame_other f :
  well_formed f → ¬ targets_protected f → forwarded_as f f.
Proof.
  intros [Hf Hlay] Hnt. unfold forwarded_as.
  destruct (complete_frame_inv f Hf)
    as (t1 & t2 & p1 & p2 & l1 & l2 & u & fc & pdu & Ef & Hsize).
  unfold rewrite_frame. rewrite unpack_HH_tail.
  assert (Hfc : frame_func f = Some (byte_val fc)) by (by rewrite Ef).
  assert (Hp0 : drop 7 f !! 0%nat = Some fc) by (by rewrite Ef).
  rewrite Hp0.
  destruct (Z.eqb_spec (byte_val fc) 16) as [H16|]; [|done].
  rewrite H16 in Hfc. destruct (Hlay Hfc) as (qty & Hqty & _).
  unfold frame_qty in Hqty. change (7 + 1)%nat with 8%nat.
  destruct (unpack_HH f 8) as [[start q]|] eqn:Hsq; [|done].
  cbn in Hqty. injection Hqty as ->.
  destruct (Z.leb_spec start SIG_BC_HR_ADDR), (Z.ltb_spec SIG_BC_HR_ADDR (start + qty));
    try done.
  exfalso. apply Hnt. split; [done|]. exists start, qty.
  unfold frame_start, frame_qty. rewrite Hsq. by repeat split.
Qed.


Lemma unpack_HH_nonneg buf off a q :
  unpack_HH buf off = Some (a, q) → 0 ≤ a ∧ 0 ≤ q.
Proof.
  unfold unpack_HH. destruct (drop off buf) as [|a1 [|a2 [|q1 [|q2 ?]]]]; try done.
  intros [= <- <-]. split; apply u16be_nonneg.
Qed.

Lemma set_item_in_range buf i x :
  0 ≤ i < Z.of_nat (length buf) → set_item buf i x = Some (<[Z.to_nat i := x]> buf).
Proof.
  intros Hi. unfold set_item.
  destruct (Z.leb_spec 0 i), (Z.ltb_spec i (Z.of_nat (length buf))); try lia. done.
Qed.

Lemma rewrite_frame_target f :
  well_formed f → targets_protected f →
  forwarded_as f (<[S (protected_pos f) := x01]> (<[protected_pos f := x00]> f)).
Proof.
  intros [Hf Hlay] (Hfc & start & qty & Hstart & Hqty & Hrange).
  unfold forwarded_as.
  destruct (Hlay Hfc) as (qty' & Hqty' & Hsize). rewrite Hqty in Hqty'.
  injection Hqty' as <-.
  destruct (complete_frame_inv f Hf)
    as (t1 & t2 & p1 & p2 & l1 & l2 & u & fc & pdu & Ef & _).
  unfold rewrite_frame, protected_pos. rewrite unpack_HH_tail, Hstart.
  assert (Hp0 : drop 7 f !! 0%nat = Some fc) by (by rewrite Ef).
  assert (H16 : byte_val fc = 16).
  { rewrite Ef in Hfc. cbn in Hfc. by injection Hfc. }
  rewrite Hp0, H16. cbn [Z.eqb Pos.eqb]. change (7 + 1)%nat with 8%nat.
  unfold frame_start, frame_qty in Hstart, Hqty.
  destruct (unpack_HH f 8) as [[a q]|] eqn:Hsq; [|done].
  cbn in Hstart, Hqty. injection Hstart as ->. injection Hqty as ->.
  destruct (unpack_HH_nonneg _ _ _ _ Hsq) as [Ha _].
  unfold SIG_BC_HR_ADDR in *.
  destruct (Z.leb_spec start 1), (Z.ltb_spec 1 (start + qty)); try lia.
  cbn [andb].
  assert (Hpdu : length (drop 7 f) = (length f - 7)%nat) by apply length_drop.
  rewrite set_item_in_range by lia.
  rewrite set_item_in_range by (rewrite length_insert; lia).
  f_equal.
  rewrite <- (take_drop 7 f) at 3.
  assert (Ht : length (take 7 f) = 7%nat) by (rewrite length_take; lia).
  rewrite !insert_app_r_alt by (rewrite ?Ht; lia). rewrite Ht.
  do 3 f_equal; lia.
Qed.

(** What a well-formed frame comes out as. *)
Lemma well_formed_forwarded f :
  well_formed f → ∃ o, forwarded_as f o.
Proof.
  intros Hf.
  destruct (rewrite_frame f) as [e|o] eqn:Hrw; [|by exists o].
  exfalso.
  assert (Hdec : targets_protected f ∨ ¬ targets_protected f).
  { unfold targets_protected.
    destruct (frame_func f) as [fc|]; [|right; by intros [? _]].
    destruct (decide (fc = 16)) as [->|]; [|right; intros [? _]; congruence].
    destruct (frame_start f) as [a|]; [|right; by intros (_ & ? & ? & ? & _)].
    destruct (frame_qty f) as [q|]; [|right; by intros (_ & ? & ? & _ & ? & _)].
    destruct (decide (a ≤ SIG_BC_HR_ADDR < a + q)); [left|right].
    - split; [done|]. by exists a, q.
    - intros (_ & a' & q' & [= <-] & [= <-] & ?). done. }
  destruct Hdec as [Ht|Hnt].
  - pose proof (rewrite_frame_target f Hf Ht) as H. unfold forwarded_as in H. congruence.
  - pose proof (rewrite_frame_other f Hf Hnt) as H. unfold forwarded_as in H. congruence.
Qed.

Lemma well_formed_all_forwarded frames :
  Forall well_formed frames → ∃ outs, Forall2 forwarded_as frames outs.
Proof.
  induction 1 as [|f frames Hf _ [outs IH]]; [by exists []|].
  destruct (well_formed_forwarded f Hf) as [o Ho]. exists (o :: outs). by constructor.
Qed.

(** A whole buffer of well-formed frames, and what may follow them. *)
Lemma process_frames frames outs tid :
  Forall well_formed frames →
  Forall2 forwarded_as frames outs →
  process_modbus_payload (concat frames) tid =
    Some (last_tid frames tid, inr (concat outs)).
Proof.
  intros Hwf Hfw. unfold process_modbus_payload.
  assert (Hc : Forall complete_frame frames) by (eapply Forall_impl; [done|by intros ? []]).
  pose proof (frames_fuel frames Hc) as Hfuel.
  replace (S (length (concat frames)))
    with (length frames + S (length (concat frames) - length frames))%nat by lia.
  rewrite <- (app_nil_r (concat frames)) at 2.
  rewrite (parse_loop_frames frames outs Hc Hfw _ [] [] tid []).
  by rewrite (parse_loop_short_tail _ _ []) by (cbn; lia).
Qed.


(** *** The loop on any buffer that starts with complete frames *)

Lemma set_item_nonneg buf i x buf' :
  set_item buf i x = Some buf' → 0 ≤ i →
  i < Z.of_nat (length buf) ∧ buf' = <[Z.to_nat i := x]> buf.
Proof.
  unfold set_item. intros H Hi.
  destruct (Z.leb_spec 0 i); [|lia].
  destruct (Z.ltb_spec i (Z.of_nat (length buf))); cbn [andb] in H.
  - by injection H as <-.
  - destruct (Z.ltb_spec i 0); [lia|]. by rewrite andb_false_r in H.
Qed.

(** What the body of the loop lets through: the frame at its length; with
    the two bytes of the protected register forced when the frame is a
    function-16 frame whose range contains that register, which must then be
    long enough to hold them; untouched otherwise. No layout is assumed. *)
Lemma forwarded_as_shape f o :
  forwarded_as f o →
  length o = length f ∧
  (targets_protected f →
     (13 ≤ protected_pos f)%nat ∧ (S (protected_pos f) < length f)%nat ∧
     o = <[S (protected_pos f) := x01]> (<[protected_pos f := x00]> f)) ∧
  (¬ targets_protected f → o = f).
Proof.
  unfold forwarded_as, rewrite_frame. rewrite lookup_drop, unpack_HH_tail.
  change (7 + 0)%nat with 7%nat. change (7 + 1)%nat with 8%nat.
  destruct (f !! 7%nat) as [fc|] eqn:Hfc; [|done].
  assert (Hfunc : frame_func f = Some (byte_val fc)) by (unfold frame_func; by rewrite Hfc).
  destruct (Z.eqb_spec (byte_val fc) 16) as [H16|Hn16].
  2:{ intros [= <-]. split; [done|]. split; [|done]. intros [Hf _]. congruence. }
  destruct (unpack_HH f 8) as [[start qty]|] eqn:Hsq; [|done].
  assert (Hstart : frame_start f = Some start) by (unfold frame_start; by rewrite Hsq).
  assert (Hqty : frame_qty f = Some qty) by (unfold frame_qty; by rewrite Hsq).
  destruct (unpack_HH_nonneg _ _ _ _ Hsq) as [Ha _].
  unfold SIG_BC_HR_ADDR in *.
  destruct (Z.leb_spec start 1) as [Hlo|Hlo], (Z.ltb_spec 1 (start + qty)) as [Hhi|Hhi];
    cbn [andb].
  2,3,4: intros [= <-]; split; [done|]; split; [|done];
         intros (_ & s & q & Hs & Hq & Hr); rewrite Hstart in Hs; rewrite Hqty in Hq;
         injection Hs as <-; injection Hq as <-; unfold SIG_BC_HR_ADDR in Hr; lia.
  assert (Hpdu : length (drop 7 f) = (length f - 7)%nat) by apply length_drop.
  apply lookup_lt_Some in Hfc.
  destruct (set_item (drop 7 f) _ x00) as [pdu1|] eqn:E1; [|done].
  apply set_item_nonneg in E1 as [H1 ->]; [|lia].
  destruct (set_item _ _ x01) as [pdu2|] eqn:E2; [|done].
  apply set_item_nonneg in E2 as [H2 ->]; [|lia]. rewrite length_insert in H2.
  intros [= <-].
  assert (Ht : length (take 7 f) = 7%nat) by (rewrite length_take; lia).
  assert (Ho : take 7 f ++
                 <[Z.to_nat (6 + (1 - start) * 2 + 1) := x01]>
                   (<[Z.to_nat (6 + (1 - start) * 2) := x00]> (drop 7 f)) =
               <[S (protected_pos f) := x01]> (<[protected_pos f := x00]> f)).
  { unfold protected_pos. rewrite Hstart. unfold SIG_BC_HR_ADDR.
    rewrite <- (take_drop 7 f) at 3.
    rewrite !insert_app_r_alt by (rewrite ?Ht; lia). rewrite Ht.
    do 3 f_equal; lia. }
  rewrite Ho. split; [by rewrite !length_insert|]. split.
  - intros _. unfold protected_pos. rewrite Hstart. unfold SIG_BC_HR_ADDR.
    repeat split; lia.
  - intros Hn. exfalso. apply Hn. split; [by rewrite Hfunc, H16|].
    exists start, qty. unfold SIG_BC_HR_ADDR. repeat split; try done; lia.
Qed.

(** One turn of the loop on a complete frame: the exception of the body, or
    the next turn. *)
Lemma parse_loop_frame fuel pre f rest tid out :
  complete_frame f →
  parse_loop (S fuel) (pre ++ f ++ rest) (length pre) tid out =
    match rewrite_frame f with
    | inl e => Some (default tid (frame_tid f), inl e)
    | inr o => parse_loop fuel ((pre ++ f) ++ rest) (length (pre ++ f))
                          (default tid (frame_tid f)) (out ++ o)
    end.
Proof.
  intros Hf.
  destruct (rewrite_frame f) as [e|o] eqn:Hrw; [|by apply parse_loop_step].
  destruct (complete_frame_inv f Hf)
    as (t1 & t2 & p1 & p2 & l1 & l2 & u & fc & pdu & Ef & Hsize).
  rewrite Ef in Hrw |- *.
  set (f0 := t1 :: t2 :: p1 :: p2 :: l1 :: l2 :: u :: fc :: pdu) in *.
  rewrite Ef in Hsize. fold f0 in Hsize.
  cbn [parse_loop].
  assert (Hlen : (8 ≤ length f0)%nat) by (subst f0; cbn [length]; lia).
  rewrite !length_app.
  destruct (Z.leb_spec (Z.of_nat (length pre))
              (Z.of_nat (length pre + (length f0 + length rest)) - 7)); [|lia].
  unfold unpack_HHHB. rewrite drop_app_length.
  change (f0 ++ rest) with (t1 :: t2 :: p1 :: p2 :: l1 :: l2 :: u :: (fc :: pdu) ++ rest).
  cbn beta iota.
  replace (Z.to_nat (6 + u16be l1 l2)) with (length f0) by lia.
  change (t1 :: t2 :: p1 :: p2 :: l1 :: l2 :: u :: (fc :: pdu) ++ rest) with (f0 ++ rest).
  rewrite take_app_length, Hrw. reflexivity.
Qed.

(** When the loop returns bytes, the body has let every complete frame at the
    front of the buffer through. *)
Lemma parse_loop_frames_through frames :
  Forall complete_frame frames →
  ∀ fuel pre rest tid acc t out,
    parse_loop (length frames + fuel) (pre ++ concat frames ++ rest) (length pre) tid acc
      = Some (t, inr out) →
    ∃ outs, Forall2 forwarded_as frames outs.
Proof.
  induction 1 as [|f frames Hf Hc IH]; intros fuel pre rest tid acc t out Hrun;
    [by exists []|].
  cbn [concat length Nat.add] in Hrun. rewrite <- (app_assoc f) in Hrun.
  rewrite (parse_loop_frame _ _ _ _ _ _ Hf) in Hrun.
  destruct (rewrite_frame f) as [e|o] eqn:Hrw; [done|].
  destruct (IH _ _ _ _ _ _ _ Hrun) as [outs Houts].
  exists (o :: outs). by constructor.
Qed.

(** The output only grows. *)
Lemma parse_loop_extends fuel data offset tid acc t out :
  parse_loop fuel data offset tid acc = Some (t, inr out) →
  ∃ rest, out = acc ++ rest.
Proof.
  revert offset tid acc. induction fuel as [|fuel IH]; intros offset tid acc; [done|].
  cbn [parse_loop].
  destruct (Z.of_nat offset <=? Z.of_nat (length data) - 7).
  2:{ intros [= <- <-]. exists []. by rewrite app_nil_r. }
  destruct (unpack_HHHB data offset) as [[[[t0 pid] len] unit]|]; [|done].
  destruct (rewrite_frame _) as [e|o]; [done|].
  intros Hrun. destruct (IH _ _ _ Hrun) as [rest ->].
  exists (o ++ rest). by rewrite app_assoc.
Qed.

Lemma frames_fuel_tail (frames : list (list byte)) (tail : list byte) :
  Forall complete_frame frames →
  S (length (concat frames ++ tail)) =
    (length frames + S (length (concat frames) + length tail - length frames))%nat.
Proof. intros Hc. pose proof (frames_fuel frames Hc). rewrite length_app. lia. Qed.

(** A buffer that starts with complete frames, whatever follows them: when
    the parser returns bytes, these are what the body made of each frame, in
    order, and then the rest. *)
Lemma parser_returns frames tail tid t out :
  Forall complete_frame frames →
  process_modbus_payload (concat frames ++ tail) tid = Some (t, inr out) →
  ∃ outs rest, Forall2 forwarded_as frames outs ∧ out = concat outs ++ rest.
Proof.
  intros Hc. unfold process_modbus_payload. rewrite (frames_fuel_tail _ _ Hc).
  intros Hrun.
  destruct (parse_loop_frames_through frames Hc _ [] tail _ _ _ _ Hrun) as [outs Houts].
  exists outs. rewrite (parse_loop_frames frames outs Hc Houts _ [] tail tid []) in Hrun.
  destruct (parse_loop_extends _ _ _ _ _ _ _ Hrun) as [rest ->]. by exists rest.
Qed.

Lemma frame_len_None t : frame_len t = None → (length t < 7)%nat.
Proof.
  unfold frame_len, unpack_HHHB. rewrite drop_0.
  destruct t as [|? [|? [|? [|? [|? [|? [|? ?]]]]]]]; cbn [length]; try lia; done.
Qed.

Lemma frame_len_Some t len : frame_len t = Some len → (7 ≤ length t)%nat.
Proof.
  unfold frame_len, unpack_HHHB. rewrite drop_0.
  destruct t as [|? [|? [|? [|? [|? [|? [|? ?]]]]]]]; cbn [length]; try lia; done.
Qed.

(** On a buffer of well-formed frames the parser does return bytes. *)
Lemma well_formed_buffer_returns frames tid :
  Forall well_formed frames →
  ∃ out, process_modbus_payload (concat frames) tid =
           Some (last_tid frames tid, inr out).
Proof.
  intros Hwf. destruct (well_formed_all_forwarded frames Hwf) as [outs Hfw].
  exists (concat outs). by apply process_frames.
Qed.

(** *** The claims on the proxy *)

Lemma target_layout f :
  well_formed f → targets_protected f →
  (13 ≤ protected_pos f)%nat ∧ (S (protected_pos f) < length f)%nat.
Proof.
  intros [_ Hlay] (Hfc & start & qty & Hstart & Hqty & Hrange).
  destruct (Hlay Hfc) as (qty' & Hqty' & Hsize). rewrite Hqty in Hqty'.
  injection Hqty' as <-.
  unfold protected_pos. rewrite Hstart.
  unfold frame_start in Hstart.
  destruct (unpack_HH f 8) as [[a q]|] eqn:Hsq; [|done].
  destruct (unpack_HH_nonneg _ _ _ _ Hsq) as [Ha _].
  cbn in Hstart. injection Hstart as ->.
  unfold SIG_BC_HR_ADDR in *. lia.
Qed.

(** C6, as stated, fails: a buffer of two complete frames, the write of the
    three signals (function 16, registers 0 to 2) and a function-16 frame
    for registers 0 and 1 whose payload stops after the quantity. On the
    second frame [pdu[val_offset] = 0x00] raises [IndexError]; nothing of the
    buffer is re-emitted, the first frame included, and the relay ends. *)
Lemma proxy_raises_on_short_write :
  Forall complete_frame [signals_frame; short_write] ∧
  targets_protected signals_frame ∧
  targets_protected short_write ∧
  process_modbus_payload (concat [signals_frame; short_write]) 0 =
    Some (7, inl IndexError) ∧
  pipe_turn true (concat [signals_frame; short_write]) 0 = (7, None).
Proof.
  split; [|split; [|split; [|split; reflexivity]]].
  - repeat constructor.
    + exists 13. split; [reflexivity | split; [lia | reflexivity]].
    + exists 6. split; [reflexivity | split; [lia | reflexivity]].
  - split; [reflexivity|]. exists 0, 3.
    split; [reflexivity | split; [reflexivity | unfold SIG_BC_HR_ADDR; lia]].
  - split; [reflexivity|]. exists 0, 2.
    split; [reflexivity | split; [reflexivity | unfold SIG_BC_HR_ADDR; lia]].
Qed.

(** C6, amended. Take any buffer that starts with complete frames, whatever
    follows them, on which the parser returns bytes. The output starts with
    one frame for each of them, in order and of the same length. A
    write-multiple-registers frame (function 16) whose range of registers
    contains the protected register (holding register 1) holds the two bytes
    of that register, and comes out with them set to 00 01 and every other
    byte as it came: same thirteen bytes of header (transaction identifier,
    protocol, length field, unit), function code, start, quantity and byte
    count, same other payload bytes. *)
Theorem proxy_forces_protected_register frames tail tid t out :
  Forall complete_frame frames →
  process_modbus_payload (concat frames ++ tail) tid = Some (t, inr out) →
  ∃ outs rest,
    out = concat outs ++ rest ∧
    Forall2 (λ f o,
      length o = length f ∧
      (targets_protected f →
        (S (protected_pos f) < length f)%nat ∧
        o !! protected_pos f = Some x00 ∧
        o !! S (protected_pos f) = Some x01 ∧
        (∀ i, i ≠ protected_pos f → i ≠ S (protected_pos f) → o !! i = f !! i) ∧
        take 13 o = take 13 f)) frames outs.
Proof.
  intros Hc Hrun.
  destruct (parser_returns frames tail tid t out Hc Hrun) as (outs & rest & Hfw & ->).
  exists outs, rest. split; [done|].
  eapply Forall2_impl; [exact Hfw|]. intros f o Hfo.
  destruct (forwarded_as_shape f o Hfo) as (Hlen & Htarget & _).
  split; [done|]. intros Ht. destruct (Htarget Ht) as (H13 & Hin & ->).
  split; [done|]. repeat split.
  - rewrite list_lookup_insert_ne by lia. apply list_lookup_insert_eq. lia.
  - apply list_lookup_insert_eq. rewrite length_insert. lia.
  - intros i H1 H2. by rewrite !list_lookup_insert_ne.
  - by rewrite !take_insert_ge by lia.
Qed.

Lemma proxy_forces_protected_register_witness :
  ∃ outs rest,
    signals_frame_forced ++ clipped_write_forced ++ take 9 read_frame =
      concat outs ++ rest ∧
    Forall2 (λ f o,
      length o = length f ∧
      (targets_protected f →
        (S (protected_pos f) < length f)%nat ∧
        o !! protected_pos f = Some x00 ∧
        o !! S (protected_pos f) = Some x01 ∧
        (∀ i, i ≠ protected_pos f → i ≠ S (protected_pos f) → o !! i = f !! i) ∧
        take 13 o = take 13 f)) [signals_frame; clipped_write] outs.
Proof.
  apply (proxy_forces_protected_register [signals_frame; clipped_write]
           (take 9 read_frame) 0 65535).
  - repeat constructor.
    + exists 13. split; [reflexivity | split; [lia | reflexivity]].
    + exists 11. split; [reflexivity | split; [lia | reflexivity]].
  - reflexivity.
Defined.

(** C7, as stated, fails: a complete read request (function 3) followed in the
    same buffer by the seven header bytes of the next request, as when TCP
    splits the stream there. On the header [func_code = pdu[0]] raises
    [IndexError]; the complete frame before it is not forwarded, and the
    relay ends. *)
Lemma proxy_withholds_frame_before_header :
  complete_frame read_frame ∧
  frame_func read_frame = Some 3 ∧
  process_modbus_payload (read_frame ++ take 7 read_frame) 0 =
    Some (65535, inl IndexError) ∧
  pipe_turn true (read_frame ++ take 7 read_frame) 0 = (65535, None).
Proof.
  split; [|repeat split; reflexivity].
  exists 6. split; [reflexivity | split; [lia | reflexivity]].
Qed.

(** C7, amended. Take any buffer that starts with complete frames, whatever
    follows them, on which the parser returns bytes. The output starts with
    one frame for each of them, in order and of the same length, and a frame
    whose function code is not 16, or whose range of registers does not
    contain the protected register, comes out byte for byte as it came,
    transaction identifier included. *)
Theorem proxy_forwards_other_frames frames tail tid t out :
  Forall complete_frame frames →
  process_modbus_payload (concat frames ++ tail) tid = Some (t, inr out) →
  ∃ outs rest,
    out = concat outs ++ rest ∧
    Forall2 (λ f o, length o = length f ∧ (¬ targets_protected f → o = f))
            frames outs.
Proof.
  intros Hc Hrun.
  destruct (parser_returns frames tail tid t out Hc Hrun) as (outs & rest & Hfw & ->).
  exists outs, rest. split; [done|].
  eapply Forall2_impl; [exact Hfw|]. intros f o Hfo.
  by destruct (forwarded_as_shape f o Hfo) as (Hlen & _ & Hother).
Qed.

Lemma proxy_forwards_other_frames_witness :
  ∃ outs rest,
    inputs_frame ++ read_frame ++ signals_frame_forced = concat outs ++ rest ∧
    Forall2 (λ f o, length o = length f ∧ (¬ targets_protected f → o = f))
            [inputs_frame; read_frame; signals_frame] outs.
Proof.
  apply (proxy_forwards_other_frames [inputs_frame; read_frame; signals_frame]
           [x00; x07; x00; x00] 0 5).
  - repeat constructor.
    + exists 15. split; [reflexivity | split; [lia | reflexivity]].
    + exists 6. split; [reflexivity | split; [lia | reflexivity]].
    + exists 13. split; [reflexivity | split; [lia | reflexivity]].
  - reflexivity.
Defined.

(** C8, as stated, fails: bytes left after the last complete frame are dropped
    when there are fewer than seven of them. Here a complete frame is followed
    by the first three bytes of the next one, and only the frame comes out. *)
Lemma proxy_drops_short_tail :
  ¬ (∀ frames tail tid,
       Forall well_formed frames → incomplete_frame tail →
       ∃ tid' outs,
         process_modbus_payload (concat frames ++ tail) tid =
           Some (tid', inr (concat outs ++ tail)) ∧
         Forall2 (λ f o, length o = length f) frames outs).
Proof.
  intros H.
  destruct (H [signals_frame] [x00; x07; x00] 0) as (tid' & outs & Hrun & Hlen).
  - repeat constructor.
    + exists 13. split; [reflexivity | split; [lia | reflexivity]].
    + intros _. exists 3. split; [reflexivity | vm_compute; discriminate].
  - split; [done|]. by cbn.
  - vm_compute in Hrun.
    apply Forall2_cons_inv_l in Hlen as (o & outs' & Ho & Hnil & ->).
    apply Forall2_nil_inv_l in Hnil as ->.
    injection Hrun as _ Hout. apply (f_equal length) in Hout.
    cbn [concat] in Hout. rewrite !length_app, Ho in Hout.
    cbn in Hout. lia.
Qed.

(** C8, amended. Take a buffer made of complete frames, however many, and then
    the bytes of an incomplete frame, or none. The parser returns bytes
    exactly when the body of the loop lets every complete frame through and
    either fewer than seven bytes are left, or the body lets the incomplete
    frame through too, of which the seven header bytes and the function code
    at least have then arrived. Every complete frame is emitted in order at
    its length. Fewer than seven bytes left over are dropped from the output;
    an incomplete frame that goes through is kept after the frames at its
    full length: byte for byte, unless it is a function-16 frame whose range
    contains the protected register, which has the two bytes of that register
    set to 00 01. A header alone, seven bytes, never goes through. *)
Theorem proxy_frames_and_tail frames tail tid t out :
  Forall complete_frame frames →
  tail = [] ∨ incomplete_frame tail →
  process_modbus_payload (concat frames ++ tail) tid = Some (t, inr out) ↔
  ∃ outs,
    Forall2 (λ f o, forwarded_as f o ∧ length o = length f) frames outs ∧
    ((length tail < 7)%nat ∧ t = last_tid frames tid ∧ out = concat outs
     ∨
     ∃ kept,
       forwarded_as tail kept ∧ (8 ≤ length tail)%nat ∧
       length kept = length tail ∧ (¬ targets_protected tail → kept = tail) ∧
       (targets_protected tail →
          kept = <[S (protected_pos tail) := x01]> (<[protected_pos tail := x00]> tail)) ∧
       t = last_tid (frames ++ [tail]) tid ∧ out = concat outs ++ kept).
Proof.
  intros Hc Htail.
  assert (Hinc : ∀ len, frame_len tail = Some len → Z.of_nat (length tail) < 6 + len).
  { intros len Hlen. destruct Htail as [->|[_ H]]; [done|]. by rewrite Hlen in H. }
  unfold process_modbus_payload. rewrite (frames_fuel_tail _ _ Hc). split.
  - intros Hrun.
    destruct (parse_loop_frames_through frames Hc _ [] tail _ _ _ _ Hrun) as [outs Houts].
    exists outs. split.
    { eapply Forall2_impl; [exact Houts|]. intros f o Hfo. split; [done|].
      by destruct (forwarded_as_shape f o Hfo). }
    rewrite (parse_loop_frames frames outs Hc Houts _ [] tail tid []) in Hrun.
    destruct (frame_len tail) as [len|] eqn:Hlen.
    + pose proof (frame_len_Some _ _ Hlen) as H7. pose proof (frames_fuel frames Hc).
      replace (S (length (concat frames) + length tail - length frames))
        with (S (S (length (concat frames) + length tail - length frames - 1)))
        in Hrun by lia.
      rewrite (parse_loop_partial_tail _ _ _ len) in Hrun by auto.
      destruct (rewrite_frame tail) as [e|kept] eqn:Hrw; [done|].
      injection Hrun as <- <-. right. exists kept.
      destruct (forwarded_as_shape tail kept Hrw) as (Hl & Htarget & Hother).
      split; [done|]. split.
      { unfold rewrite_frame in Hrw. rewrite lookup_drop in Hrw.
        destruct (tail !! (7 + 0)%nat) eqn:E; [|done].
        apply lookup_lt_Some in E. lia. }
      split; [done|]. split; [done|].
      split; [intros Ht; by destruct (Htarget Ht) as (_ & _ & ->)|].
      split; [|done]. unfold last_tid. by rewrite foldl_app.
    + pose proof (frame_len_None _ Hlen) as H7.
      rewrite parse_loop_short_tail in Hrun by done.
      injection Hrun as <- <-. by left.
  - intros (outs & Hfw & Hcase).
    assert (Houts : Forall2 forwarded_as frames outs).
    { eapply Forall2_impl; [exact Hfw|]. by intros f o [? _]. }
    rewrite (parse_loop_frames frames outs Hc Houts _ [] tail tid []).
    destruct Hcase as [(H7 & -> & ->)|(kept & Hk & H8 & _ & _ & _ & -> & ->)].
    + by rewrite parse_loop_short_tail.
    + destruct (frame_len tail) as [len|] eqn:Hlen.
      2:{ apply frame_len_None in Hlen. lia. }
      pose proof (frames_fuel frames Hc).
      replace (S (length (concat frames) + length tail - length frames))
        with (S (S (length (concat frames) + length tail - length frames - 1)))
        by lia.
      rewrite (parse_loop_partial_tail _ _ _ len) by auto.
      unfold forwarded_as in Hk. rewrite Hk.
      unfold last_tid. by rewrite foldl_app.
Qed.

Lemma proxy_frames_and_tail_witness :
  ∃ outs,
    Forall2 (λ f o, forwarded_as f o ∧ length o = length f)
            [signals_frame; inputs_frame] outs ∧
    ((length (take 15 inputs_frame) < 7)%nat ∧
     6 = last_tid [signals_frame; inputs_frame] 0 ∧
     signals_frame_forced ++ inputs_frame ++ take 15 inputs_frame = concat outs
     ∨
     ∃ kept,
       forwarded_as (take 15 inputs_frame) kept ∧
       (8 ≤ length (take 15 inputs_frame))%nat ∧
       length kept = length (take 15 inputs_frame) ∧
       (¬ targets_protected (take 15 inputs_frame) → kept = take 15 inputs_frame) ∧
       (targets_protected (take 15 inputs_frame) →
          kept = <[S (protected_pos (take 15 inputs_frame)) := x01]>
                   (<[protected_pos (take 15 inputs_frame) := x00]>
                      (take 15 inputs_frame))) ∧
       6 = last_tid ([signals_frame; inputs_frame] ++ [take 15 inputs_frame]) 0 ∧
       signals_frame_forced ++ inputs_frame ++ take 15 inputs_frame =
         concat outs ++ kept).
Proof.
  destruct (proxy_frames_and_tail [signals_frame; inputs_frame]
              (take 15 inputs_frame) 0 6
              (signals_frame_forced ++ inputs_frame ++ take 15 inputs_frame))
    as [Hreturns _].
  - repeat constructor.
    + exists 13. split; [reflexivity | split; [lia | reflexivity]].
    + exists 15. split; [reflexivity | split; [lia | reflexivity]].
  - right. split; [discriminate | vm_compute; reflexivity].
  - apply Hreturns. reflexivity.
Defined.

(** The two cases of the amended C8 on example traffic: three bytes left over
    are lost, nine bytes of a read request are kept. *)
Example short_tail_dropped :
  process_modbus_payload (signals_frame ++ [x00; x07; x00]) 0 =
    Some (5, inr signals_frame_forced).
Proof. reflexivity. Qed.

Example partial_tail_kept :
  process_modbus_payload (signals_frame ++ take 9 read_frame) 0 =
    Some (65535, inr (signals_frame_forced ++ take 9 read_frame)).
Proof. reflexivity. Qed.

(** A header alone, the function code still to come, ends the relay. *)
Example header_only_raises :
  process_modbus_payload (signals_frame ++ take 7 read_frame) 0 =
    Some (65535, inl IndexError) ∧
  pipe_turn true (signals_frame ++ take 7 read_frame) 0 = (65535, None).
Proof. split; reflexivity. Qed.

(** The other direction is passed on untouched. *)
Lemma pipe_turn_passthrough data tid : pipe_turn false data tid = (tid, Some data).
Proof. reflexivity. Qed.

(** *** The manual injector *)

(** Below 65534 the identifier of the injected frame is the last one seen
    plus one. *)
Lemma manual_tid_next latest :
  0 ≤ latest < 65534 → manual_tid latest = (latest + 1) mod 65536.
Proof.
  intros H. unfold manual_tid.
  rewrite !Z.mod_small by lia. done.
Qed.

(** C9 fails at the top of the range: the code reduces modulo 65535, not
    65536. After a relayed frame with identifier 65535 the injected frame
    carries identifier 1, not 0; after 65534 it carries 0, not 65535. *)
Theorem manual_tid_modulus :
  process_modbus_payload read_frame 0 = Some (65535, inr read_frame) ∧
  manual_tid 65535 = 1 ∧ (65535 + 1) mod 65536 = 0 ∧
  manual_tid 65534 = 0 ∧ (65534 + 1) mod 65536 = 65535 ∧
  manual_packet 65535 1 =
    Some [x00; x01; x00; x00; x00; x06; x01; x06; x00; x01; x00; x01].
Proof. repeat split; reflexivity. Qed.


(** *** Any buffer at all *)

Lemma set_item_Some buf i x buf' :
  set_item buf i x = Some buf' → ∃ k, buf' = <[k := x]> buf.
Proof.
  unfold set_item. repeat case_match; intros [= <-]; eauto.
Qed.

Lemma forced_or_same_refl l : Forall2 forced_or_same l l.
Proof. induction l; constructor; [by left|done]. Qed.

Lemma forced_or_same_insert l k i x :
  Forall2 forced_or_same l k → x = x00 ∨ x = x01 →
  Forall2 forced_or_same l (<[i := x]> k).
Proof.
  intros H Hx. apply Forall2_same_length_lookup in H as [Hlen H].
  apply Forall2_same_length_lookup. split; [by rewrite length_insert|].
  intros j a c Ha Hc. apply list_lookup_insert_Some in Hc as [(-> & -> & _)|[_ Hc]].
  - right. exact Hx.
  - by apply (H j).
Qed.

(** The body of the loop keeps the length of the frame and changes no byte
    except into 00 or 01. *)
Lemma rewrite_frame_bytes f o :
  rewrite_frame f = inr o → Forall2 forced_or_same f o.
Proof.
  unfold rewrite_frame.
  destruct (drop 7 f !! 0%nat) as [fc|]; [|done].
  destruct (byte_val fc =? 16); [|intros [= <-]; apply forced_or_same_refl].
  destruct (unpack_HH (drop 7 f) 1) as [[start qty]|]; [|done].
  destruct ((start <=? SIG_BC_HR_ADDR) && (SIG_BC_HR_ADDR <? start + qty));
    [|intros [= <-]; apply forced_or_same_refl].
  destruct (set_item (drop 7 f) _ x00) as [pdu1|] eqn:H1; [|done].
  destruct (set_item pdu1 _ x01) as [pdu2|] eqn:H2; [|done].
  intros [= <-].
  apply set_item_Some in H1 as [k1 ->]. apply set_item_Some in H2 as [k2 ->].
  rewrite <- (take_drop 7 f) at 1.
  apply Forall2_app; [apply forced_or_same_refl|].
  apply forced_or_same_insert; [|by right].
  apply forced_or_same_insert; [|by left]. apply forced_or_same_refl.
Qed.

(** The loop keeps, turn after turn, an output that lines up with the part of
    the buffer it has gone through. *)
Lemma parse_loop_bytes fuel data offset tid out t res :
  length out = Nat.min offset (length data) →
  Forall2 forced_or_same (take (length out) data) out →
  parse_loop fuel data offset tid out = Some (t, inr res) →
  (length data - 6 ≤ length res ≤ length data)%nat ∧
  Forall2 forced_or_same (take (length res) data) res.
Proof.
  revert offset tid out.
  induction fuel as [|fuel IH]; intros offset tid out Hlen Hout; [done|].
  cbn [parse_loop].
  destruct (Z.leb_spec (Z.of_nat offset) (Z.of_nat (length data) - 7)) as [Hin|Hend].
  2:{ intros [= <- <-]. split; [lia|done]. }
  destruct (unpack_HHHB data offset) as [[[[t0 pid] len] unit]|]; [|done].
  set (total := Z.to_nat (6 + len)).
  destruct (rewrite_frame (take total (drop offset data))) as [e|frame'] eqn:Hrw; [done|].
  apply rewrite_frame_bytes in Hrw.
  pose proof (Forall2_length _ _ _ Hrw) as Hfl.
  rewrite length_take, length_drop in Hfl.
  apply IH.
  - rewrite length_app. lia.
  - rewrite length_app, <- Hfl.
    assert (Ho : length out = offset) by lia. rewrite Ho.
    rewrite <- take_take_drop.
    apply Forall2_app; [by rewrite <- Ho|].
    destruct (Nat.min_spec total (length data - offset)) as [[_ ->]|[Hge ->]];
      [done|].
    rewrite take_ge by (rewrite length_drop; lia).
    by rewrite take_ge in Hrw by (rewrite length_drop; lia).
Qed.

(** Whatever the buffer, when the parser returns, its output is the buffer
    with at most its last six bytes cut off and with no byte changed except
    into 00 or 01: the proxy adds nothing, reorders nothing, and loses at most
    a trailing run too short to hold a header. *)
Theorem proxy_output_shape data tid t out :
  process_modbus_payload data tid = Some (t, inr out) →
  (length data - 6 ≤ length out ≤ length data)%nat ∧
  Forall2 forced_or_same (take (length out) data) out.
Proof.
  unfold process_modbus_payload. apply parse_loop_bytes; [done|constructor].
Qed.

Lemma proxy_output_shape_witness :
  (length (signals_frame ++ [x00; x07; x00]) - 6 ≤ length signals_frame_forced
     ≤ length (signals_frame ++ [x00; x07; x00]))%nat ∧
  Forall2 forced_or_same
    (take (length signals_frame_forced) (signals_frame ++ [x00; x07; x00]))
    signals_frame_forced.
Proof.
  apply (proxy_output_shape (signals_frame ++ [x00; x07; x00]) 0 5 signals_frame_forced).
  reflexivity.
Defined.


(** *** Frames without a function code *)

Lemma rewrite_frame_headless f :
  (length f ≤ 7)%nat → rewrite_frame f = inl IndexError.
Proof.
  intros Hlen. unfold rewrite_frame. by rewrite drop_ge by lia.
Qed.

Lemma parse_loop_headless fuel pre bad len tid out :
  frame_len bad = Some len →
  len ≤ 1 ∨ length bad = 7%nat →
  parse_loop (S fuel) (pre ++ bad) (length pre) tid out =
    Some (default tid (frame_tid bad), inl IndexError).
Proof.
  intros Hhdr Hbad.
  unfold frame_len, unpack_HHHB in Hhdr. rewrite drop_0 in Hhdr.
  destruct bad as [|t1 [|t2 [|p1 [|p2 [|l1 [|l2 [|u pdu]]]]]]] eqn:Ebad;
    try discriminate.
  cbn in Hhdr. injection Hhdr as <-. rewrite <- Ebad in *.
  assert (Hlen : (7 ≤ length bad)%nat) by (subst bad; cbn [length]; lia).
  assert (Htid : frame_tid bad = Some (u16be t1 t2)) by (by rewrite Ebad).
  cbn [parse_loop]. rewrite !length_app.
  destruct (Z.leb_spec (Z.of_nat (length pre))
              (Z.of_nat (length pre + length bad) - 7)); [|lia].
  unfold unpack_HHHB. rewrite drop_app_length.
  rewrite Ebad at 1. cbn beta iota.
  rewrite rewrite_frame_headless, Htid; [done|].
  rewrite length_take. pose proof (u16be_nonneg l1 l2). lia.
Qed.

(** A frame of which only the header is there, because its length field says
    0 or 1 or because the buffer ends after the seventh byte, has no function
    code to read: the parser raises [IndexError] having recorded the frame's
    transaction identifier, and the relay forwards nothing of the buffer, not
    even the complete frames that came before, and ends. *)
Theorem proxy_raises_on_headless_frame frames bad len tid :
  Forall well_formed frames →
  frame_len bad = Some len →
  len ≤ 1 ∨ length bad = 7%nat →
  process_modbus_payload (concat frames ++ bad) tid =
    Some (last_tid (frames ++ [bad]) tid, inl IndexError) ∧
  pipe_turn true (concat frames ++ bad) tid = (last_tid (frames ++ [bad]) tid, None).
Proof.
  intros Hwf Hhdr Hbad.
  destruct (well_formed_all_forwarded frames Hwf) as [outs Hfw].
  assert (Hc : Forall complete_frame frames) by (eapply Forall_impl; [done|by intros ? []]).
  pose proof (frames_fuel frames Hc) as Hfuel.
  assert (Hrun : process_modbus_payload (concat frames ++ bad) tid =
                 Some (last_tid (frames ++ [bad]) tid, inl IndexError)).
  { unfold process_modbus_payload. rewrite length_app.
    replace (S (length (concat frames) + length bad))
      with (length frames + S (length (concat frames) + length bad - length frames))%nat
      by lia.
    rewrite (parse_loop_frames frames outs Hc Hfw _ [] bad tid []).
    rewrite (parse_loop_headless _ _ _ len) by done.
    unfold last_tid. by rewrite foldl_app. }
  split; [done|]. unfold pipe_turn. by rewrite Hrun.
Qed.

Lemma proxy_raises_on_headless_frame_witness :
  process_modbus_payload (concat [signals_frame] ++ take 7 read_frame) 0 =
    Some (last_tid ([signals_frame] ++ [take 7 read_frame]) 0, inl IndexError) ∧
  pipe_turn true (concat [signals_frame] ++ take 7 read_frame) 0 =
    (last_tid ([signals_frame] ++ [take 7 read_frame]) 0, None).
Proof.
  apply (proxy_raises_on_headless_frame [signals_frame] (take 7 read_frame) 6 0).
  - repeat constructor.
    + exists 13. split; [reflexivity | split; [lia | reflexivity]].
    + intros _. exists 3. split; [reflexivity | vm_compute; discriminate].
  - reflexivity.
  - right. reflexivity.
Defined.

(** *** The packet of the manual override *)

Lemma byte_of_val v :
  0 ≤ v < 256 → ∃ x, byte_of v = Some x ∧ byte_val x = v.
Proof.
  intros Hv. unfold byte_of.
  destruct (Z.leb_spec 0 v), (Z.ltb_spec v 256); try lia. cbn [andb].
  destruct (Byte.of_N (Z.to_N v)) as [x|] eqn:Hx.
  - exists x. split; [done|]. apply Byte.to_of_N in Hx. unfold byte_val. lia.
  - apply Byte.of_N_None_iff in Hx. lia.
Qed.

(** [pack] then [unpack] of a 16-bit field. *)
Lemma pack_H_u16be v :
  0 ≤ v < 65536 → ∃ hi lo, pack_H v = Some [hi; lo] ∧ u16be hi lo = v.
Proof.
  intros Hv. unfold pack_H.
  destruct (Z.leb_spec 0 v), (Z.ltb_spec v 65536); try lia. cbn [andb].
  destruct (byte_of_val (v / 256)) as (hi & Hhi & Vhi).
  { split; [apply Z.div_pos; lia|apply Z.div_lt_upper_bound; lia]. }
  destruct (byte_of_val (v mod 256)) as (lo & Hlo & Vlo).
  { apply Z.mod_pos_bound. lia. }
  exists hi, lo. rewrite Hhi, Hlo. split; [done|].
  unfold u16be. rewrite Vhi, Vlo. pose proof (Z.div_mod v 256). lia.
Qed.

(** For every value of [latest_transaction_id] and every register value that
    fits 16 bits, the manual override packs without error into a complete
    12-byte frame that decodes to what was packed: transaction identifier
    [manual_tid], length field 6, function 6 (write single register),
    register 1, the value. It is not a function-16 frame, so the parser of the
    proxy itself would pass it on untouched. *)
Theorem manual_packet_decodes latest val :
  0 ≤ val < 65536 →
  ∃ p,
    manual_packet latest val = Some p ∧
    length p = 12%nat ∧
    frame_tid p = Some (manual_tid latest) ∧
    frame_len p = Some 6 ∧
    frame_func p = Some 6 ∧
    unpack_HH p 8 = Some (SIG_BC_HR_ADDR, val) ∧
    complete_frame p ∧
    rewrite_frame p = inr p.
Proof.
  intros Hval.
  assert (Htid : 0 ≤ manual_tid latest < 65536).
  { unfold manual_tid. pose proof (Z.mod_pos_bound (latest + 1) 65535). lia. }
  destruct (pack_H_u16be _ Htid) as (t1 & t2 & Ht & Vt).
  destruct (pack_H_u16be _ Hval) as (v1 & v2 & Hv & Vv).
  unfold manual_packet. rewrite Ht, Hv.
  change (pack_H 0) with (Some [x00; x00]).
  change (pack_H 6) with (Some [x00; x06]).
  change (pack_B UNIT_ID) with (Some [x01]).
  change (pack_B 6) with (Some [x06]).
  change (pack_H SIG_BC_HR_ADDR) with (Some [x00; x01]).
  cbn [mbind option_bind app].
  eexists. split; [reflexivity|].
  assert (Hlen : frame_len [t1; t2; x00; x00; x00; x06; x01; x06; x00; x01; v1; v2]
                 = Some 6) by reflexivity.
  repeat split; try reflexivity.
  - unfold frame_tid, unpack_HHHB. cbn. by rewrite Vt.
  - unfold unpack_HH. cbn [drop]. by rewrite Vv.
  - exists 6. split; [exact Hlen|]. split; [lia|reflexivity].
Qed.

Lemma manual_packet_decodes_witness :
  ∃ p,
    manual_packet 65535 1 = Some p ∧
    length p = 12%nat ∧
    frame_tid p = Some (manual_tid 65535) ∧
    frame_len p = Some 6 ∧
    frame_func p = Some 6 ∧
    unpack_HH p 8 = Some (SIG_BC_HR_ADDR, 1) ∧
    complete_frame p ∧
    rewrite_frame p = inr p.
Proof. apply (manual_packet_decodes 65535 1). lia. Defined.

(** The transaction identifier of the injected frame is never the one last
    seen on the relay, for any 16-bit value of it, and is always below
    65535. *)
Theorem manual_tid_fresh latest :
  0 ≤ latest ≤ 65535 →
  manual_tid latest ≠ latest ∧ 0 ≤ manual_tid latest < 65535.
Proof.
  intros Hl. unfold manual_tid.
  pose proof (Z.mod_pos_bound (latest + 1) 65535).
  split; [|lia].
  destruct (decide (latest + 1 < 65535)) as [Hs|Hs].
  - rewrite Z.mod_small by lia. lia.
  - assert (latest = 65534 ∨ latest = 65535) as [-> | ->] by lia; by vm_compute.
Qed.

Lemma manual_tid_fresh_witness :
  manual_tid 65535 ≠ 65535 ∧ 0 ≤ manual_tid 65535 < 65535.
Proof. apply (manual_tid_fresh 65535). lia. Defined.


(** *** Relaying what has been relayed *)

Lemma unpack_HHHB_take f : unpack_HHHB (take 13 f) 0 = unpack_HHHB f 0.
Proof.
  unfold unpack_HHHB. rewrite !drop_0.
  by destruct f as [|? [|? [|? [|? [|? [|? [|? ?]]]]]]].
Qed.

Lemma unpack_HH_take f : unpack_HH (take 13 f) 8 = unpack_HH f 8.
Proof.
  unfold unpack_HH.
  by destruct f as [|? [|? [|? [|? [|? [|? [|? [|? [|? [|? [|? [|? [|? ?]]]]]]]]]]]]].
Qed.

Lemma frame_func_take f : frame_func (take 13 f) = frame_func f.
Proof. unfold frame_func. by rewrite lookup_take_lt by lia. Qed.

(** The frame that comes out of the proxy is again well formed, and goes
    through the proxy unchanged. *)
Lemma forwarded_again f o :
  well_formed f → forwarded_as f o → well_formed o ∧ forwarded_as o o.
Proof.
  intros Hf Ho.
  assert (Hdec : targets_protected f ∨ ¬ targets_protected f).
  { unfold targets_protected.
    destruct (frame_func f) as [fc|]; [|right; by intros [? _]].
    destruct (decide (fc = 16)) as [->|]; [|right; intros [? _]; congruence].
    destruct (frame_start f) as [a|]; [|right; by intros (_ & ? & ? & ? & _)].
    destruct (frame_qty f) as [q|]; [|right; by intros (_ & ? & ? & _ & ? & _)].
    destruct (decide (a ≤ SIG_BC_HR_ADDR < a + q)); [left|right].
    - split; [done|]. by exists a, q.
    - intros (_ & a' & q' & [= <-] & [= <-] & ?). done. }
  destruct Hdec as [Ht|Hnt].
  2:{ pose proof (rewrite_frame_other f Hf Hnt) as H. unfold forwarded_as in *.
      assert (o = f) as -> by congruence. done. }
  pose proof (rewrite_frame_target f Hf Ht) as H. unfold forwarded_as in Ho, H.
  rewrite Ho in H. injection H as Eo.
  destruct (target_layout f Hf Ht) as [H13 Hin].
  assert (Htake : take 13 o = take 13 f)
    by (rewrite Eo; by rewrite !take_insert_ge by lia).
  assert (Hlen : length o = length f) by (rewrite Eo; by rewrite !length_insert).
  assert (Hhdr : unpack_HHHB o 0 = unpack_HHHB f 0)
    by (by rewrite <- unpack_HHHB_take, Htake, unpack_HHHB_take).
  assert (Hsq : unpack_HH o 8 = unpack_HH f 8)
    by (by rewrite <- unpack_HH_take, Htake, unpack_HH_take).
  assert (Hfc : frame_func o = frame_func f)
    by (by rewrite <- frame_func_take, Htake, frame_func_take).
  assert (Hpos : protected_pos o = protected_pos f)
    by (unfold protected_pos, frame_start; by rewrite Hsq).
  assert (Hwf : well_formed o).
  { destruct Hf as [(len & Hl & H2 & Hsz) Hlay]. split.
    - exists len. unfold frame_len in *. rewrite Hhdr, Hlen. done.
    - intros H16. rewrite Hfc in H16. destruct (Hlay H16) as (q & Hq & Hs).
      exists q. unfold frame_qty in *. rewrite Hsq, Hlen. done. }
  assert (Hto : targets_protected o).
  { destruct Ht as (H16 & a & q & Ha & Hq & Hr). split; [by rewrite Hfc|].
    exists a, q. unfold frame_start, frame_qty in *. rewrite Hsq. done. }
  split; [done|].
  pose proof (rewrite_frame_target o Hwf Hto) as H. unfold forwarded_as in *.
  rewrite H, Hpos. f_equal. rewrite Eo.
  rewrite (list_insert_insert_ne _ (protected_pos f) (S (protected_pos f))) by lia.
  by rewrite !list_insert_insert_eq.
Qed.

(** A buffer of complete frames that has gone through the proxy goes through
    it a second time unchanged: forcing the protected register is
    idempotent. *)
Theorem proxy_idempotent frames tid tid' :
  Forall well_formed frames →
  ∃ t t' out,
    process_modbus_payload (concat frames) tid = Some (t, inr out) ∧
    process_modbus_payload out tid' = Some (t', inr out).
Proof.
  intros Hwf.
  destruct (well_formed_all_forwarded frames Hwf) as [outs Hfw].
  assert (Hagain : Forall well_formed outs ∧ Forall2 forwarded_as outs outs).
  { clear tid tid'. induction Hfw as [|f o frames outs Hfo Hfw IH]; [by split|].
    apply Forall_cons in Hwf as [Hf Hwf].
    destruct (forwarded_again f o Hf Hfo) as [Ho Hoo].
    destruct (IH Hwf) as [Houts Hself]. split; by constructor. }
  destruct Hagain as [Houts Hself].
  exists (last_tid frames tid), (last_tid outs tid'), (concat outs).
  split; by apply process_frames.
Qed.

Lemma proxy_idempotent_witness :
  ∃ t t' out,
    process_modbus_payload (concat [signals_frame; inputs_frame]) 0 = Some (t, inr out) ∧
    process_modbus_payload out 9 = Some (t', inr out).
Proof.
  apply (proxy_idempotent [signals_frame; inputs_frame] 0 9).
  repeat constructor.
  - exists 13. split; [reflexivity | split; [lia | reflexivity]].
  - intros _. exists 3. split; [reflexivity | vm_compute; discriminate].
  - exists 15. split; [reflexivity | split; [lia | reflexivity]].
  - intros _. exists 4. split; [reflexivity | vm_compute; discriminate].
Defined.


End GatewayTheory.

Module GameTheory.
Import Game.

(** *** Rules *)

Lemma triple_ret {A} pre (x : A) P (post : A → game → Prop) :
  (∀ g, pre g → post x g) → triple pre (mret x) P post.
Proof.
  intros H w Hw. exists []. cbn. rewrite app_nil_r. auto.
Qed.

Lemma triple_bind {A B} pre (m : G A) (f : A → G B) P mid post :
  triple pre m P mid →
  (∀ x, triple (mid x) (f x) P post) →
  triple pre (m ≫= f) P post.
Proof.
  intros Hm Hf w Hw. unfold mbind, G_bind.
  destruct (Hm w Hw) as (l1 & Hs1 & HP1 & Hmid).
  destruct (m w) as [x w1]. cbn [fst snd] in *.
  destruct (Hf x w1 Hmid) as (l2 & Hs2 & HP2 & Hpost).
  exists (l1 ++ l2). rewrite Hs2, Hs1, app_assoc. split; [done|].
  split; [by apply Forall_app|done].
Qed.

Lemma triple_conseq {A} (pre pre' : game → Prop) (m : G A) P
    (post post' : A → game → Prop) :
  triple pre' m P post' →
  (∀ g, pre g → pre' g) → (∀ x g, post' x g → post x g) →
  triple pre m P post.
Proof.
  intros Hm Hpre Hpost w Hw.
  destruct (Hm w (Hpre _ Hw)) as (l & ? & ? & ?). exists l. auto.
Qed.

Lemma triple_get pre P : triple pre get P (λ x g, x = g ∧ pre g).
Proof. intros w Hw. exists []. cbn. rewrite app_nil_r. auto. Qed.

Lemma triple_upd pre f P (post : unit → game → Prop) :
  (∀ g, pre g → post tt (f g)) → triple pre (upd f) P post.
Proof. intros H w Hw. exists []. cbn. rewrite app_nil_r. auto. Qed.

Lemma triple_send pre r (P : request → Prop) :
  P r → triple pre (send r) P (λ _, pre).
Proof. intros H w Hw. exists [r]. cbn. auto. Qed.

Lemma triple_link pre P : triple pre link P (λ _, pre).
Proof. intros w Hw. exists []. cbn. rewrite app_nil_r. auto. Qed.

Lemma triple_peer pre P : triple pre peer P (λ _, pre).
Proof. intros w Hw. exists []. cbn. rewrite app_nil_r. auto. Qed.

Lemma triple_set_peer pre st P : triple pre (set_peer st) P (λ _, pre).
Proof. intros w Hw. exists []. cbn. rewrite app_nil_r. auto. Qed.

Lemma triple_when pre (c : bool) m P (post : unit → game → Prop) :
  (c = true → triple pre m P post) →
  (c = false → ∀ g, pre g → post tt g) →
  triple pre (when c m) P post.
Proof.
  intros Ht Hf. destruct c; cbn [when]; [auto|]. apply triple_ret. auto.
Qed.

Lemma triple_get_bind {B} (I : game → Prop) (k : game → G B) P post :
  (∀ g0, I g0 → triple I (k g0) P post) → triple I (get ≫= k) P post.
Proof. intros H w Hw. exact (H (gm w) Hw w Hw). Qed.

Lemma triple_upd_inv (I : game → Prop) f P :
  (∀ g, I g → I (f g)) → triple I (upd f) P (λ _, I).
Proof. intros H. by apply triple_upd. Qed.

Lemma triple_seq {A B} (I : game → Prop) (m : G A) (k : G B) P post :
  triple I m P (λ _, I) → triple I k P post → triple I (m ≫= λ _, k) P post.
Proof. intros Hm Hk. eapply triple_bind; [exact Hm|]. intros x. exact Hk. Qed.

Lemma triple_skip (I : game → Prop) P : triple I (mret tt) P (λ _, I).
Proof. by apply triple_ret. Qed.

(** *** The client keeps any stable property and sends what its methods say *)

Section client.
Context (I : game → Prop) (P : request → Prop) (HI : stable I).

Lemma connect_spec : P Connect → triple I connect P (λ _, I).
Proof.
  intros HP. unfold connect.
  apply triple_seq; [by apply triple_send|].
  eapply triple_bind; [apply triple_link|]. intros up.
  apply triple_seq; [apply triple_upd_inv; intros; by apply HI|].
  by apply triple_ret.
Qed.

Lemma close_spec : triple I close P (λ _, I).
Proof. apply triple_upd_inv. intros. by apply HI. Qed.

Lemma reconnect_spec : P Connect → triple I reconnect_if_needed P (λ _, I).
Proof.
  intros HP. unfold reconnect_if_needed.
  apply triple_get_bind. intros g0 _.
  apply triple_when; [intros _|done].
  apply triple_seq; [apply close_spec|].
  eapply triple_bind; [by apply connect_spec|]. intros x. apply triple_skip.
Qed.

Lemma read_coils_basic_spec :
  P (ReadCoils CO_TURNOUT_MAIN 2) → triple I read_coils_basic P (λ _, I).
Proof.
  intros HP. unfold read_coils_basic.
  apply triple_get_bind. intros g0 _.
  destruct (negb (plc_connected g0)); [by apply triple_ret|].
  apply triple_seq; [by apply triple_send|].
  eapply triple_bind; [apply triple_link|]. intros up.
  destruct (negb up).
  - apply triple_seq; [apply triple_upd_inv; intros; by apply HI|].
    by apply triple_ret.
  - eapply triple_bind; [apply triple_peer|]. intros st.
    destruct (read_range _ _ _) as [[|b0 [|b1 [|? ?]]]|]; by apply triple_ret.
Qed.

Lemma read_holding_spec addr count :
  P (ReadHolding addr count) → triple I (read_holding addr count) P (λ _, I).
Proof.
  intros HP. unfold read_holding.
  apply triple_get_bind. intros g0 _.
  destruct (negb (plc_connected g0)); [by apply triple_ret|].
  apply triple_seq; [by apply triple_send|].
  eapply triple_bind; [apply triple_link|]. intros up.
  destruct (negb up).
  - apply triple_seq; [apply triple_upd_inv; intros; by apply HI|].
    by apply triple_ret.
  - eapply triple_bind; [apply triple_peer|]. intros st. by apply triple_ret.
Qed.

Lemma write_registers_spec addr values :
  P (WriteRegisters addr values) →
  triple I (write_registers addr values) P (λ _, I).
Proof.
  intros HP. unfold write_registers.
  apply triple_get_bind. intros g0 _.
  destruct (negb (plc_connected g0)); [by apply triple_ret|].
  apply triple_seq; [by apply triple_send|].
  eapply triple_bind; [apply triple_link|]. intros up.
  destruct (negb up).
  - apply triple_seq; [apply triple_upd_inv; intros; by apply HI|].
    by apply triple_ret.
  - eapply triple_bind; [apply triple_peer|]. intros st.
    apply triple_seq; [apply triple_set_peer|]. by apply triple_ret.
Qed.
End client.


Lemma triple_requests {A} pre (m : G A) P post w :
  triple pre m P post → pre (gm w) → Forall P (requests_of m w).
Proof.
  intros Hm Hw. destruct (Hm w Hw) as (l & Hs & HP & _).
  unfold requests_of. by rewrite Hs, drop_app_length.
Qed.

Lemma stable_crash_active b : stable (λ g, crash_active g = b).
Proof. by intros v g H. Qed.

Lemma stable_True : stable (λ _, True).
Proof. done. Qed.

(** *** A turn of the loop that starts inside a wait window *)

Section wait_window.
Context (now : Z).
Let I : game → Prop := λ g, crash_active g = false.

Lemma crash_push_idle P : triple I crash_push P (λ _, I).
Proof.
  unfold crash_push. apply triple_get_bind. intros g0 Hg0.
  unfold I in Hg0. rewrite Hg0. apply triple_skip.
Qed.

Lemma plc_comms_off (J : game → Prop) P : triple J (plc_comms false now) P (λ _, J).
Proof. unfold plc_comms. apply triple_get_bind. intros g0 _. apply triple_skip. Qed.

Lemma handle_event_off e P : triple I (handle_event false now e) P (λ _, I).
Proof.
  destruct e; cbn [handle_event].
  - apply triple_seq; [apply close_spec, stable_crash_active|by apply triple_ret].
  - apply triple_seq; [apply close_spec, stable_crash_active|by apply triple_ret].
  - apply triple_seq; [by apply triple_upd_inv|by apply triple_ret].
  - apply triple_seq; [|by apply triple_ret].
    apply triple_upd_inv. intros g Hg. unfold I in *. rewrite Hg. cbn.
    by destruct (negb (mode_auto g)).
  - apply triple_get_bind. intros g0 _.
    apply triple_seq; [apply triple_skip|by apply triple_ret].
  - by apply triple_ret.
Qed.

Lemma handle_events_off events P :
  triple I (handle_events false now events) P (λ _, I).
Proof.
  induction events as [|e events IH]; cbn [handle_events]; [by apply triple_ret|].
  eapply triple_bind; [apply handle_event_off|].
  intros [|]; [by apply triple_ret|apply IH].
Qed.

Lemma crash_reset_idle P : triple I (crash_reset now) P (λ _, I).
Proof.
  unfold crash_reset. apply triple_get_bind. intros g0 Hg0.
  unfold I in Hg0. rewrite Hg0. apply triple_skip.
Qed.

Lemma tick_in_wait_window events :
  triple (λ g, in_wait_window now g = true) (tick now events) nothing (λ _ _, True).
Proof.
  unfold tick. apply triple_get_bind. intros g0 Hg0.
  assert (Hc : crash_active g0 = false).
  { unfold in_wait_window in Hg0. by destruct (crash_active g0). }
  assert (Hoff : comms_enabled now g0 = false).
  { unfold comms_enabled. by rewrite Hc, Hg0. }
  rewrite Hoff.
  apply (triple_conseq _ I _ _ _ (λ _ _, True)); [|unfold in_wait_window, I|done].
  2:{ intros g Hg. by destruct (crash_active g). }
  apply triple_seq.
  { apply triple_upd_inv. intros g Hg. by rewrite andb_false_r. }
  apply triple_seq; [apply crash_push_idle|].
  apply triple_seq; [apply plc_comms_off|].
  eapply triple_bind; [apply handle_events_off|].
  intros [|]; [by apply triple_ret|].
  apply triple_seq; [apply crash_reset_idle|].
  eapply triple_bind; [by apply (triple_upd _ _ _ (λ _ _, True))|].
  intros x. by apply triple_ret.
Qed.
End wait_window.

(** A turn of the loop that starts inside a wait window (no crash active, the
    deadline ahead) sends nothing to the PLC: no publish, no toggle, no
    resynchronisation, not even a connection attempt. *)
Theorem wait_window_tick_sends_nothing now events w :
  in_wait_window now (gm w) = true → requests_of (tick now events) w = [].
Proof.
  intros Hw.
  pose proof (triple_requests _ _ _ _ w (tick_in_wait_window now events) Hw) as H.
  destruct (requests_of _ _) as [|r l]; [done|].
  by apply Forall_cons in H as [[] _].
Qed.


(** *** A turn of the loop that starts with a crash active *)

Lemma crash_writes_only_crash v : crash_writes_only (WriteRegisters HR_IN_CRASH [v]).
Proof. by intros _. Qed.

Lemma crash_writes_only_read r : is_write r = false → crash_writes_only r.
Proof. intros Hr. unfold crash_writes_only. by rewrite Hr. Qed.

Ltac client_side :=
  first [ apply stable_crash_active | apply stable_True
        | by apply crash_writes_only_read | apply crash_writes_only_crash ].

Section crash_tick.
Context (now : Z).
Let I : game → Prop := λ g, crash_active g = true.
Let P := crash_writes_only.

Lemma crash_push_spec : triple I crash_push P (λ _, I).
Proof.
  unfold crash_push. apply triple_get_bind. intros g0 _.
  apply triple_when; [intros _|done].
  apply triple_seq; [apply reconnect_spec; client_side|].
  apply triple_get_bind. intros g1 _.
  apply triple_when; [intros _|done].
  eapply triple_bind; [apply write_registers_spec; client_side|].
  intros x. by apply triple_upd_inv.
Qed.

Lemma plc_comms_crash : triple I (plc_comms true now) P (λ _, I).
Proof.
  unfold plc_comms. apply triple_get_bind. intros g0 _.
  apply triple_when; [intros _|done].
  apply triple_seq; [by apply triple_upd_inv|].
  apply triple_seq; [apply reconnect_spec; client_side|].
  apply triple_get_bind. intros g1 Hg1. unfold I in Hg1.
  rewrite Hg1, andb_false_r. apply triple_seq; [apply triple_skip|].
  apply triple_get_bind. intros g2 _.
  apply triple_when; [intros _|done].
  eapply triple_bind; [apply read_coils_basic_spec; client_side|]. intros [tm es].
  apply triple_seq; [by apply triple_upd_inv|].
  eapply triple_bind; [apply read_holding_spec; client_side|]. intros m.
  apply triple_seq.
  { destruct m as [[|m0 ?]|]; [apply triple_skip|by apply triple_upd_inv|apply triple_skip]. }
  apply triple_get_bind. intros g3 Hg3. unfold I in Hg3.
  rewrite Hg3, andb_false_r. apply triple_seq; [apply triple_skip|].
  apply triple_get_bind. intros g4 Hg4. unfold I in Hg4.
  unfold effective_manual. rewrite Hg4. apply triple_skip.
Qed.

Lemma handle_events_crash events :
  K_SPACE ∉ events → triple I (handle_events true now events) P (λ _, I).
Proof.
  induction events as [|e events IH]; intros Hno; cbn [handle_events];
    [by apply triple_ret|].
  apply not_elem_of_cons in Hno as [He Hno].
  eapply triple_bind with (mid := λ _, I).
  - destruct e; cbn [handle_event]; try done.
    + apply triple_seq; [apply close_spec, stable_crash_active|by apply triple_ret].
    + apply triple_seq; [apply close_spec, stable_crash_active|by apply triple_ret].
    + apply triple_seq; [|by apply triple_ret].
      apply triple_upd_inv. intros g Hg. unfold I in *. by rewrite Hg.
    + apply triple_get_bind. intros g0 Hg0. unfold I in Hg0. rewrite Hg0.
      apply triple_seq; [apply triple_skip|by apply triple_ret].
    + by apply triple_ret.
  - intros [|]; [by apply triple_ret|by apply IH].
Qed.

Lemma handle_events_no_toggle comms_on events :
  K_t ∉ events →
  triple (λ _, True) (handle_events comms_on now events) P (λ _ _, True).
Proof.
  induction events as [|e events IH]; intros Hno; cbn [handle_events];
    [by apply triple_ret|].
  apply not_elem_of_cons in Hno as [He Hno].
  eapply triple_bind with (mid := λ _ _, True).
  - destruct e; cbn [handle_event]; try done.
    + apply triple_seq; [apply close_spec, stable_True|by apply triple_ret].
    + apply triple_seq; [apply close_spec, stable_True|by apply triple_ret].
    + apply triple_seq; [by apply triple_upd_inv|by apply triple_ret].
    + apply triple_seq; [by apply triple_upd_inv|by apply triple_ret].
    + by apply triple_ret.
  - intros [|]; [by apply triple_ret|by apply IH].
Qed.

Lemma crash_reset_spec : triple (λ _, True) (crash_reset now) P (λ _ _, True).
Proof.
  unfold crash_reset. apply triple_get_bind. intros g0 _.
  apply triple_when; [intros _|done].
  apply triple_seq; [apply reconnect_spec; client_side|].
  apply triple_get_bind. intros g1 _.
  apply triple_seq; [|by apply triple_upd_inv].
  apply triple_when; [intros _|done].
  eapply triple_bind; [apply write_registers_spec; client_side|].
  intros x. apply triple_skip.
Qed.

Lemma tick_in_crash events :
  K_SPACE ∉ events ∨ K_t ∉ events →
  triple I (tick now events) P (λ _ _, True).
Proof.
  intros Hev. unfold tick. apply triple_get_bind. intros g0 Hg0.
  assert (Hon : comms_enabled now g0 = true).
  { unfold comms_enabled. unfold I in Hg0. by rewrite Hg0. }
  rewrite Hon.
  apply triple_seq.
  { apply triple_upd_inv. intros g Hg. by destruct (negb _ && true). }
  apply triple_seq; [apply crash_push_spec|].
  apply triple_seq; [apply plc_comms_crash|].
  eapply triple_bind with (mid := λ _ _, True).
  { destruct Hev as [Hev|Hev].
    - eapply triple_conseq; [by apply handle_events_crash|done..].
    - eapply triple_conseq; [by apply handle_events_no_toggle|done..]. }
  intros [|]; [by apply triple_ret|].
  apply triple_seq; [apply crash_reset_spec|].
  eapply triple_bind; [by apply (triple_upd _ _ _ (λ _ _, True))|].
  intros x. by apply triple_ret.
Qed.
End crash_tick.

(** In a turn of the loop that starts with a crash active, whether the wait
    deadline is ahead or not, the only writes sent are writes of the crash
    register alone, as long as the events of the frame do not hold both the
    reset key and the turnout key. *)
Theorem crash_tick_writes_crash_only now events w :
  crash_active (gm w) = true →
  K_SPACE ∉ events ∨ K_t ∉ events →
  Forall crash_writes_only (requests_of (tick now events) w).
Proof.
  intros Hw Hev.
  exact (triple_requests _ _ _ _ w (tick_in_crash now events Hev) Hw).
Qed.


(** *** The reset key followed by the turnout key *)

(** [comms_on] is read once at the top of the turn. When it is true and the
    reset key comes first among the events of the frame, [reset_all] opens a
    wait window, and the turnout key handled next still toggles the turnout on
    the PLC: a read and a write of coil 0, sent inside the window. *)
Lemma toggle_turnout_sends g st c l s :
  plc_connected g = true →
  Plc.co st = c :: l →
  sent (snd (toggle_turnout (World g true st s))) =
    s ++ [ReadCoils CO_TURNOUT_MAIN 1;
          WriteCoils CO_TURNOUT_MAIN [if Plc.b c =? 0 then 1 else 0]].
Proof.
  intros Hconn Hco.
  unfold toggle_turnout, get, link, send, peer, set_peer, when, mbind, G_bind.
  cbn [gm link_up remote sent fst snd]. rewrite Hconn.
  cbn [negb gm link_up remote sent fst snd].
  unfold read_range, CO_TURNOUT_MAIN. rewrite Hco.
  rewrite decide_True by (cbn; lia).
  cbn [take drop gm link_up remote sent fst snd]. rewrite take_0.
  cbn [gm link_up remote sent fst snd]. by rewrite <- app_assoc.
Qed.

Lemma turnout_key_sends now g st c l s :
  plc_connected g = true →
  crash_active g = false →
  Plc.co st = c :: l →
  requests_of (handle_event true now K_t) (World g true st s) =
    [ReadCoils CO_TURNOUT_MAIN 1;
     WriteCoils CO_TURNOUT_MAIN [if Plc.b c =? 0 then 1 else 0]].
Proof.
  intros Hconn Hcrash Hco.
  pose proof (toggle_turnout_sends g st c l s Hconn Hco) as Hs.
  unfold requests_of, handle_event, get, when, mbind, G_bind, mret, G_ret.
  cbn [gm sent]. rewrite Hcrash. cbn [negb andb].
  destruct (toggle_turnout _) as [x w1]. cbn [snd sent] in *.
  by rewrite Hs, drop_app_length.
Qed.

Lemma toggle_right_after_reset now w :
  plc_connected (gm w) = true →
  link_up w = true →
  (0 < length (Plc.co (remote w)))%nat →
  let w1 := snd (handle_event true now K_SPACE w) in
  in_wait_window now (gm w1) = true ∧
  ∃ v, requests_of (handle_event true now K_t) w1 =
         [ReadCoils CO_TURNOUT_MAIN 1; WriteCoils CO_TURNOUT_MAIN [v]].
Proof.
  destruct w as [g up st s]. cbn [gm link_up remote]. intros Hconn -> Hlen.
  change (snd (handle_event true now K_SPACE (World g true st s)))
    with (World (reset_all now g) true st s).
  cbn zeta. cbn [gm].
  assert (Hc : crash_active (reset_all now g) = false) by reflexivity.
  assert (Hw : wait_until (reset_all now g) = now + WAIT_SEC) by reflexivity.
  assert (Hp : plc_connected (reset_all now g) = true) by exact Hconn.
  generalize dependent (reset_all now g). intros g1 Hc Hw Hp. split.
  - unfold in_wait_window. rewrite Hc, Hw. unfold WAIT_SEC. lia.
  - destruct (Plc.co st) as [|c l] eqn:Hco; [cbn in Hlen; lia|].
    eexists. by apply (turnout_key_sends now g1 st c l s).
Qed.

(** *** A turn of the loop with the client connected and the PLC reachable *)

Section online_turn.
Context (s0 : list request) (c0 : list Z).


















End online_turn.








(** The two keys in an ordinary turn of the automatic cycle, outside any wait
    window: the poll and the publish of the turn, then the toggle, sent
    after the reset has opened a window. *)
Example reset_then_toggle_under_way :
  in_wait_window 4250 (gm under_way) = false ∧
  requests_of (tick 4250 [K_SPACE; K_t]) under_way =
    [ReadCoils 0 2; ReadHolding 50 1; WriteRegisters 100 [1; 0; 0; 0];
     WriteRegisters 0 [1; 0; 0]; ReadCoils 0 1; WriteCoils 0 [0]] ∧
  in_wait_window 4250 (gm (snd (tick 4250 [K_SPACE; K_t] under_way))) = true.
Proof. vm_compute. repeat split; reflexivity. Qed.

(** Without the reset key the same turn of the crashed game sends the crash
    write and reads only. *)
Example crash_tick_with_toggle_key :
  requests_of (tick 10000 [K_t]) collided =
    [WriteRegisters HR_IN_CRASH [1]; ReadCoils CO_TURNOUT_MAIN 2; ReadHolding HR_MODE 1].
Proof. vm_compute. reflexivity. Qed.


Lemma wait_window_tick_sends_nothing_witness :
  requests_of (tick 100 [K_t; K_m]) (initial_world 0 Plc.initial_store) = [].
Proof.
  apply (wait_window_tick_sends_nothing 100 [K_t; K_m]
           (initial_world 0 Plc.initial_store)).
  reflexivity.
Defined.

Lemma crash_tick_writes_crash_only_witness :
  Forall crash_writes_only (requests_of (tick 10000 [K_t; K_m]) collided).
Proof.
  apply (crash_tick_writes_crash_only 10000 [K_t; K_m] collided).
  - vm_compute. reflexivity.
  - left. by apply (bool_decide_unpack _).
Defined.

(** *** What the trains and the crash flag keep *)

Lemma triple_get_eq {B} (I : game → Prop) (k : game → G B) P post :
  (∀ g0, I g0 → triple (λ g, g = g0) (k g0) P post) → triple I (get ≫= k) P post.
Proof. intros H w Hw. exact (H (gm w) Hw w eq_refl). Qed.


Lemma coherent_running g :
  crash_active g = false →
  coherent g ↔
    T1_places (loc (T1 g)) ∧ T2_places (loc (T2 g)) ∧
    ¬ (loc (T1 g) = B ∧ loc (T2 g) = B) ∧
    (moving (T1 g) = true → T1_places (dest (T1 g))) ∧
    (moving (T2 g) = true → T2_places (dest (T2 g))).
Proof. intros H. unfold coherent. by rewrite H. Qed.

Ltac places := unfold T1_places, T2_places; auto.

Lemma auto_sequence_coherent now g :
  crash_active g = false → coherent g →
  crash_active (auto_sequence now g) = false ∧ coherent (auto_sequence now g).
Proof.
  intros Hk Hc. apply coherent_running in Hc as (H1 & H2 & H3 & H4 & H5); [|done].
  unfold auto_sequence.
  destruct (auto_state g); repeat case_match.
  all: split; [exact Hk|apply coherent_running; [exact Hk|]].
  all: cbn; repeat split; try done; intros; places.
Qed.

Lemma manual_moves_coherent now g :
  crash_active g = false → coherent g →
  crash_active (manual_moves now g) = false ∧ coherent (manual_moves now g).
Proof.
  intros Hk Hc. apply coherent_running in Hc as (H1 & H2 & H3 & H4 & H5); [|done].
  unfold manual_moves.
  repeat case_match.
  all: split; [exact Hk|apply coherent_running; [exact Hk|]].
  all: cbn; repeat split; try done; intros; places.
Qed.


(** [finish_move] by its two outcomes. The states are long chains of field
    updates; the fields are read off them one at a time. *)
Lemma finish_move_crash k now g :
  collides k g = true →
  crash_active (finish_move k now g) = true ∧
  loc (T1 (finish_move k now g)) = CRASH ∧ loc (T2 (finish_move k now g)) = CRASH ∧
  moving (T1 (finish_move k now g)) = false ∧ moving (T2 (finish_move k now g)) = false ∧
  sig_ab (finish_move k now g) = RED ∧ sig_bc (finish_move k now g) = RED ∧
  sig_sb (finish_move k now g) = RED.
Proof.
  unfold collides, finish_move. intros ->. by destruct k.
Qed.

Lemma finish_move_arrive k now g :
  collides k g = false →
  crash_active (finish_move k now g) = crash_active g ∧
  get_train k (finish_move k now g) =
    Train (dest (get_train k g)) false (move_start (get_train k g)) NoPlace ∧
  get_train (other_train k) (finish_move k now g) = get_train (other_train k) g.
Proof.
  unfold collides, finish_move. intros ->. by destruct k.
Qed.

Lemma collides_false k g :
  collides k g = false →
  dest (get_train k g) = B → loc (get_train (other_train k) g) ≠ B.
Proof.
  unfold collides. intros Hcond Hd Hl.
  apply andb_false_iff in Hcond as [Hcond|Hcond].
  - by apply bool_decide_eq_false in Hcond.
  - apply orb_false_iff in Hcond as [Hcond _].
    by apply bool_decide_eq_false in Hcond.
Qed.

Lemma finish_move_coherent k now g :
  crash_active g = false → coherent g →
  moving (get_train k g) = true →
  coherent (finish_move k now g).
Proof.
  intros Hk Hc Hm. apply coherent_running in Hc as (H1 & H2 & H3 & H4 & H5); [|done].
  destruct (collides k g) eqn:Hcond.
  - destruct (finish_move_crash k now g Hcond) as (Hcr & ?).
    unfold coherent. by rewrite Hcr.
  - destruct (finish_move_arrive k now g Hcond) as (Hcr & Hme & Hother).
    pose proof (collides_false k g Hcond) as Hno.
    apply coherent_running; [by rewrite Hcr|].
    destruct k; cbn [get_train other_train] in *; rewrite Hme, Hother;
      cbn [loc moving dest]; repeat split; auto; try done.
    + intros [Hd Hl]. by apply Hno.
    + intros [Hl Hd]. by apply Hno.
Qed.

Lemma update_train_positions_coherent now g :
  crash_active g = false → coherent g → coherent (update_train_positions now g).
Proof.
  intros Hk Hc. unfold update_train_positions. rewrite Hk. cbn [negb].
  rewrite !andb_true_r.
  destruct (arrived now (T1 g)) eqn:Ha1.
  - assert (Hm1 : moving (T1 g) = true)
      by (unfold arrived in Ha1; by apply andb_true_iff in Ha1 as [? _]).
    pose proof (finish_move_coherent KT1 now g Hk Hc Hm1) as Hc1.
    destruct (collides KT1 g) eqn:Hcond.
    + destruct (finish_move_crash KT1 now g Hcond) as (Hcr & _).
      by rewrite Hcr, andb_false_r.
    + destruct (finish_move_arrive KT1 now g Hcond) as (Hcr & _ & Hother).
      rewrite Hcr, Hk, andb_true_r.
      destruct (arrived now (T2 g)) eqn:Ha2; [|done].
      apply finish_move_coherent; [by rewrite Hcr|done|].
      cbn [get_train other_train] in *. rewrite Hother.
      unfold arrived in Ha2. by apply andb_true_iff in Ha2 as [? _].
  - cbn [andb]. rewrite Hk. cbn [negb]. rewrite andb_true_r.
    destruct (arrived now (T2 g)) eqn:Ha2; [|done].
    apply finish_move_coherent; [done..|]. cbn [get_train].
    unfold arrived in Ha2. by apply andb_true_iff in Ha2 as [? _].
Qed.

Lemma movement_coherent now g : coherent g → coherent (movement now g).
Proof.
  intros Hc. unfold movement.
  destruct (crash_active g) eqn:Hk; [done|]. cbn [negb andb].
  destruct (estop g =? 0); [|done].
  destruct (negb (effective_manual g)).
  - destruct (auto_sequence_coherent now g Hk Hc).
    by apply update_train_positions_coherent.
  - destruct (manual_moves_coherent now g Hk Hc).
    by apply update_train_positions_coherent.
Qed.

Lemma reset_all_coherent now g : coherent (reset_all now g).
Proof.
  assert (Hk : crash_active (reset_all now g) = false) by reflexivity.
  assert (H1 : loc (T1 (reset_all now g)) = A) by reflexivity.
  assert (H2 : loc (T2 (reset_all now g)) = S) by reflexivity.
  assert (H3 : moving (T1 (reset_all now g)) = false) by reflexivity.
  assert (H4 : moving (T2 (reset_all now g)) = false) by reflexivity.
  apply coherent_running; [done|]. rewrite H1, H2, H3, H4.
  repeat split; try done; places. by intros [? ?].
Qed.


(** *** Resynchronisation and the turnout key, for any invariant *)

Lemma triple_get_both {B} (I : game → Prop) (k : game → G B) P post :
  (∀ g0, I g0 → triple (λ g, g = g0 ∧ I g) (k g0) P post) →
  triple I (get ≫= k) P post.
Proof. intros H w Hw. exact (H (gm w) Hw w (conj eq_refl Hw)). Qed.

Lemma toggle_turnout_spec (I : game → Prop) (P : request → Prop) :
  stable I →
  P (ReadCoils CO_TURNOUT_MAIN 1) →
  (∀ v, P (WriteCoils CO_TURNOUT_MAIN [v])) →
  triple I toggle_turnout P (λ _, I).
Proof.
  intros HI HPr HPw. unfold toggle_turnout.
  apply triple_get_bind. intros g0 _.
  apply triple_when; [intros _|done].
  apply triple_seq; [by apply triple_send|].
  eapply triple_bind; [apply triple_link|]. intros up.
  destruct (negb up); [apply triple_upd_inv; intros; by apply HI|].
  eapply triple_bind; [apply triple_peer|]. intros st.
  destruct (read_range _ _ _) as [[|cur [|? ?]]|]; try apply triple_skip.
  apply triple_seq; [by apply triple_send|]. apply triple_set_peer.
Qed.

(** A resynchronisation sends reads (and, when it has to reconnect, a
    connection attempt); it answers [False] only when the client is left
    disconnected. *)
Lemma sync_from_plc_apply_spec (I : game → Prop) (P : request → Prop) :
  survives_sync I →
  (∀ r, is_write r = false → P r) →
  triple I sync_from_plc_apply P
    (λ ok g, I g ∧ (ok = false → plc_connected g = false)).
Proof.
  intros (HI & Hco & Hmo & Hsi & Hoc) HP. unfold sync_from_plc_apply.
  apply triple_seq; [apply reconnect_spec; [done|by apply HP]|].
  apply triple_get_both. intros g0 _.
  destruct (plc_connected g0) eqn:Hconn; cbn [negb].
  2:{ apply triple_ret. intros g [-> Hg]. done. }
  apply (triple_conseq _ I _ _ _ (λ ok g, I g ∧ (ok = false → plc_connected g = false)));
    [|by intros g [_ Hg]|done].
  eapply triple_bind; [apply read_coils_basic_spec; [done|by apply HP]|].
  intros [tm es].
  apply triple_seq; [apply triple_upd_inv; intros; by apply Hco|].
  eapply triple_bind; [apply read_holding_spec; [done|by apply HP]|]. intros regs_mode.
  apply triple_seq.
  { destruct regs_mode as [[|m ?]|]; try apply triple_skip.
    apply triple_upd_inv. intros. by apply Hmo. }
  eapply triple_bind; [apply read_holding_spec; [done|by apply HP]|]. intros regs_sig.
  apply triple_seq.
  { destruct regs_sig as [[|r0 [|r1 [|r2 ?]]]|]; try apply triple_skip.
    apply triple_upd_inv. intros. by apply Hsi. }
  eapply triple_bind; [apply read_holding_spec; [done|by apply HP]|]. intros regs_occ.
  apply triple_seq.
  { destruct regs_occ as [[|o0 [|o1 [|o2 [|o3 ?]]]]|]; try apply triple_skip.
    apply triple_upd_inv. intros. by apply Hoc. }
  apply triple_ret. intros g Hg. split; [done|discriminate].
Qed.


(** *** The trains and the crash flag stay coherent *)

Lemma stable_coherent : stable coherent.
Proof. intros v g H. exact H. Qed.

Lemma survives_sync_running :
  survives_sync (λ g, coherent g ∧ crash_active g = false).
Proof.
  repeat split; try (intros; destruct H as [Hc Hk]; exact Hc || exact Hk).
  all: intros; destruct H as [Hc Hk].
  all: try exact Hk.
  all: apply coherent_running; [exact Hk|].
  all: by apply coherent_running in Hc.
Qed.

Lemma anything_goes r : anything r.
Proof. done. Qed.

#[local] Hint Resolve stable_coherent anything_goes : core.

Lemma plc_comms_coherent comms_on now :
  triple coherent (plc_comms comms_on now) anything (λ _, coherent).
Proof.
  pose proof survives_sync_running as Hsync.
  unfold plc_comms. apply triple_get_bind. intros g0 _.
  apply triple_when; [intros _|done].
  apply triple_seq; [apply triple_upd_inv; by intros g H|].
  apply triple_seq; [by apply reconnect_spec|].
  apply triple_get_both. intros g1 _.
  eapply triple_bind with (mid := λ _, coherent); [|intros _].
  { apply triple_when; [intros Hc|by intros _ g [_ H]].
    apply andb_true_iff in Hc as [_ Hc]. apply negb_true_iff in Hc.
    apply (triple_conseq _ (λ g, coherent g ∧ crash_active g = false) _ _ _
             (λ _ g, coherent g ∧ crash_active g = false)).
    - eapply triple_bind; [by apply sync_from_plc_apply_spec|]. intros ok.
      apply (triple_conseq _ (λ g, coherent g ∧ crash_active g = false) _ _ _
               (λ _ g, coherent g ∧ crash_active g = false)); [|by intros g [? _]|done].
      apply triple_seq; [|apply triple_upd_inv; by intros g H].
      apply triple_when; [intros _|done]. apply triple_upd_inv. by intros g H.
    - by intros g [-> H].
    - by intros _ g [H _]. }
  apply triple_get_bind. intros g2 _.
  apply triple_when; [intros _|done].
  eapply triple_bind; [by apply read_coils_basic_spec|]. intros [tm es].
  apply triple_seq; [apply triple_upd_inv; by intros g H|].
  eapply triple_bind; [by apply read_holding_spec|]. intros m.
  apply triple_seq.
  { destruct m as [[|m0 ?]|];
      [apply triple_skip|apply triple_upd_inv; by intros g H|apply triple_skip]. }
  apply triple_get_both. intros g3 _.
  eapply triple_bind with (mid := λ _, coherent); [|intros _].
  { apply triple_when; [intros Hc|by intros _ g [_ H]].
    apply andb_true_iff in Hc as [_ Hc]. apply negb_true_iff in Hc.
    apply (triple_conseq _ (λ g, coherent g ∧ crash_active g = false) _ _ _
             (λ _ g, coherent g ∧ crash_active g = false)).
    - eapply triple_bind; [by apply sync_from_plc_apply_spec|]. intros ok.
      apply triple_ret. by intros g [? _].
    - by intros g [-> H].
    - by intros _ g [H _]. }
  apply triple_get_bind. intros g4 _.
  apply triple_when; [intros _|done].
  apply triple_seq; [apply triple_upd_inv; intros g H; exact H|].
  apply triple_get_bind. intros g5 _.
  eapply triple_bind; [by apply write_registers_spec|]. intros x.
  eapply triple_bind; [by apply write_registers_spec|]. intros y.
  apply triple_skip.
Qed.

Lemma crash_push_coherent : triple coherent crash_push anything (λ _, coherent).
Proof.
  unfold crash_push. apply triple_get_bind. intros g0 _.
  apply triple_when; [intros _|done].
  apply triple_seq; [by apply reconnect_spec|].
  apply triple_get_bind. intros g1 _.
  apply triple_when; [intros _|done].
  eapply triple_bind; [by apply write_registers_spec|]. intros x.
  apply triple_upd_inv. by intros g H.
Qed.

Lemma handle_events_coherent comms_on now events :
  triple coherent (handle_events comms_on now events) anything (λ _, coherent).
Proof.
  induction events as [|e events IH]; cbn [handle_events]; [by apply triple_ret|].
  eapply triple_bind with (mid := λ _, coherent).
  - destruct e; cbn [handle_event].
    + apply triple_seq; [by apply close_spec|by apply triple_ret].
    + apply triple_seq; [by apply close_spec|by apply triple_ret].
    + apply triple_seq; [|by apply triple_ret].
      apply triple_upd_inv. intros g _. apply reset_all_coherent.
    + apply triple_seq; [|by apply triple_ret].
      apply triple_upd_inv. intros g H.
      destruct (crash_active g); [done|]. by destruct (negb (mode_auto g)).
    + apply triple_get_bind. intros g0 _.
      apply triple_seq; [|by apply triple_ret].
      apply triple_when; [intros _|done]. by apply toggle_turnout_spec.
    + by apply triple_ret.
  - intros [|]; [by apply triple_ret|apply IH].
Qed.

Lemma crash_reset_coherent now :
  triple coherent (crash_reset now) anything (λ _, coherent).
Proof.
  unfold crash_reset. apply triple_get_bind. intros g0 _.
  apply triple_when; [intros _|done].
  apply triple_seq; [by apply reconnect_spec|].
  apply triple_get_bind. intros g1 _.
  apply triple_seq.
  - apply triple_when; [intros _|done].
    eapply triple_bind; [by apply write_registers_spec|]. intros x. apply triple_skip.
  - apply triple_upd_inv. intros g _. apply reset_all_coherent.
Qed.

Lemma tick_coherent now events :
  triple coherent (tick now events) anything (λ _, coherent).
Proof.
  unfold tick. apply triple_get_bind. intros g0 _.
  apply triple_seq.
  { apply triple_upd_inv. intros g H. by destruct (negb _ && _). }
  apply triple_seq; [apply crash_push_coherent|].
  apply triple_seq; [apply plc_comms_coherent|].
  eapply triple_bind; [apply handle_events_coherent|].
  intros [|]; [by apply triple_ret|].
  apply triple_seq; [apply crash_reset_coherent|].
  apply triple_seq; [|by apply triple_ret].
  apply triple_upd_inv. intros g H. by apply movement_coherent.
Qed.

Lemma do_step_coherent s w : coherent (gm w) → coherent (gm (do_step s w)).
Proof.
  intros Hw. destruct s; cbn [do_step gm]; try done.
  - destruct (tick_coherent now events w Hw) as (_ & _ & _ & H). exact H.
  - by destruct (Plc.plc_logic_scan (remote w)) as [[[? ?] ?]|].
Qed.

(** Whatever happens after the start of the program (turns of the loop with
    any clock readings and any keys, scans of the PLC, writes by other clients,
    the connection going and coming), the trains and the crash flag stay
    coherent. In particular the two trains are never both located in block B:
    the move that would put the second one there ends in the crash state, with
    both trains wrecked and at rest and all three signals red for as long as
    the crash is active. *)
Theorem trains_stay_coherent steps now plc :
  let g := gm (run steps (initial_world now plc)) in
  coherent g ∧
  ¬ (loc (T1 g) = B ∧ loc (T2 g) = B) ∧
  (crash_active g = true ↔ loc (T1 g) = CRASH) ∧
  (crash_active g = true ↔ loc (T2 g) = CRASH).
Proof.
  cbn zeta.
  assert (H0 : coherent (gm (initial_world now plc))).
  { change (gm (initial_world now plc))
      with (reset_all now (set_plc_connected true initial_game)).
    apply reset_all_coherent. }
  assert (H : coherent (gm (run steps (initial_world now plc)))).
  { unfold run. generalize dependent (initial_world now plc). intros w.
    revert w. induction steps as [|s steps IH]; intros w Hw; [done|].
    cbn [foldl]. apply IH. by apply do_step_coherent. }
  split; [done|]. revert H. unfold coherent, T1_places, T2_places.
  generalize (gm (run steps (initial_world now plc))). intros g.
  destruct (crash_active g).
  - intros (-> & -> & _). repeat split; try done. by intros [? _].
  - intros ([-> | [-> | ->]] & [-> | ->] & H3 & _); repeat split; try done.
Qed.



(** *** A turn of the loop in the operator's manual mode *)

Section manual_tick.
Context (now : Z).
Let I : game → Prop := λ g, mode_auto g = false ∧ crash_active g = false.
Let J : game → Prop := λ g, crash_active g = false.
Let P := reads_only.

Lemma survives_sync_manual : survives_sync I.
Proof. unfold survives_sync, stable. repeat apply conj; intros * H; exact H. Qed.

Lemma reads_only_read r : is_write r = false → reads_only r.
Proof. done. Qed.

Lemma plc_comms_manual comms_on : triple I (plc_comms comms_on now) P (λ _, I).
Proof.
  pose proof survives_sync_manual as Hsync.
  pose proof reads_only_read as HP.
  assert (HI : stable I) by apply Hsync.
  unfold plc_comms. apply triple_get_bind. intros g0 _.
  apply triple_when; [intros _|done].
  apply triple_seq; [apply triple_upd_inv; by intros g H|].
  apply triple_seq; [by apply reconnect_spec|].
  apply triple_get_bind. intros g1 _.
  apply triple_seq.
  { apply triple_when; [intros _|done].
    eapply triple_bind; [by apply sync_from_plc_apply_spec|]. intros ok.
    apply (triple_conseq _ I _ _ _ (λ _, I)); [|by intros g [? _]|done].
    apply triple_seq; [|apply triple_upd_inv; by intros g H].
    apply triple_when; [intros _|done]. apply triple_upd_inv. by intros g H. }
  apply triple_get_bind. intros g2 _.
  apply triple_when; [intros _|done].
  eapply triple_bind; [by apply read_coils_basic_spec|]. intros [tm es].
  apply triple_seq; [apply triple_upd_inv; by intros g H|].
  eapply triple_bind; [by apply read_holding_spec|]. intros m.
  apply triple_seq.
  { destruct m as [[|m0 ?]|];
      [apply triple_skip|apply triple_upd_inv; by intros g H|apply triple_skip]. }
  apply triple_get_bind. intros g3 _.
  apply triple_seq.
  { apply triple_when; [intros _|done].
    eapply triple_bind; [by apply sync_from_plc_apply_spec|]. intros ok.
    apply triple_ret. by intros g [? _]. }
  apply triple_get_bind. intros g4 [Hm Hc].
  unfold effective_manual. rewrite Hm, Hc. apply triple_skip.
Qed.

Lemma handle_events_quiet comms_on events :
  K_t ∉ events → triple J (handle_events comms_on now events) P (λ _, J).
Proof.
  induction events as [|e events IH]; intros Hno; cbn [handle_events];
    [by apply triple_ret|].
  apply not_elem_of_cons in Hno as [He Hno].
  eapply triple_bind with (mid := λ _, J).
  - destruct e; cbn [handle_event]; try done.
    + apply triple_seq; [apply close_spec, stable_crash_active|by apply triple_ret].
    + apply triple_seq; [apply close_spec, stable_crash_active|by apply triple_ret].
    + apply triple_seq; [by apply triple_upd_inv|by apply triple_ret].
    + apply triple_seq; [|by apply triple_ret].
      apply triple_upd_inv. intros g Hg. unfold J in *. rewrite Hg.
      by destruct (negb (mode_auto g)).
    + by apply triple_ret.
  - intros [|]; [by apply triple_ret|by apply IH].
Qed.

Lemma tick_in_manual events :
  K_t ∉ events → triple I (tick now events) P (λ _ _, True).
Proof.
  intros Hev. unfold tick. apply triple_get_bind. intros g0 _.
  apply triple_seq.
  { apply triple_upd_inv. intros g Hg. by destruct (negb _ && _). }
  apply triple_seq.
  { unfold crash_push. apply triple_get_bind. intros g [_ Hc].
    rewrite Hc. apply triple_skip. }
  apply triple_seq; [apply plc_comms_manual|].
  apply (triple_conseq _ J _ _ _ (λ _ _, True)); [|by intros g [_ ?]|done].
  eapply triple_bind; [by apply handle_events_quiet|].
  intros [|]; [by apply triple_ret|].
  apply triple_seq; [apply crash_reset_idle|].
  eapply triple_bind; [by apply (triple_upd _ _ _ (λ _ _, True))|].
  intros x. by apply triple_ret.
Qed.
End manual_tick.

(** A turn of the loop that starts in the operator's manual mode (the local
    flag [mode_auto] off) with no crash active sends no write to the PLC as
    long as the turnout key is not among the events of the frame: it polls
    and resynchronises with reads only, and the publish of inputs and
    signals is skipped whatever mode the PLC reports. *)
Theorem manual_tick_sends_no_write now events w :
  mode_auto (gm w) = false → crash_active (gm w) = false → K_t ∉ events →
  Forall reads_only (requests_of (tick now events) w).
Proof.
  intros Hm Hc Hev.
  exact (triple_requests _ _ _ _ w (tick_in_manual now events Hev) (conj Hm Hc)).
Qed.

Lemma manual_tick_sends_no_write_witness :
  Forall reads_only (requests_of (tick 4100 [K_SPACE; K_m]) manual_cruising).
Proof.
  apply (manual_tick_sends_no_write 4100 [K_SPACE; K_m] manual_cruising).
  - vm_compute. reflexivity.
  - vm_compute. reflexivity.
  - by apply (bool_decide_unpack _).
Defined.

End GameTheory.
